(** * Verification of the credential-encryption core (utils/encryption.ts)

    The TypeScript module derives a 32-byte key with PBKDF2-HMAC-SHA256,
    seals a password with AES-256-GCM under a random 16-byte IV and a fixed
    associated-data string, and ships [iv || authTag || ciphertext] as one
    base64 string.  This development embeds its source functions
    ([deriveKey], [encryptPassword], [decryptPassword],
    [generateEncryptedPassword]) together with the parts of the Node.js
    runtime they call: the UTF-8 and base64 codecs of [Buffer], and
    [crypto]'s PBKDF2 and AES-256-GCM, each written out from its standard
    (FIPS 180-4, RFC 2104, RFC 8018, FIPS 197, SP 800-38D).  Around the
    module it embeds what uses it: the stored credential of
    utils/constants.ts, the command-line script scripts/encrypt-password,
    and the name generators of utils/helpers.ts. *)

From Stdlib.Strings Require Import String Ascii Byte.
From Stdlib Require Import NArith ZArith PeanoNat List Bool Lia Uint63.
From Stdlib Require Import DecimalString DecimalN.
Import ListNotations.
Local Open Scope N_scope.

(* ================================================================== *)
(** * Part I: definitions *)
(* ================================================================== *)

(** ** Bytes and big-endian integers *)

Module Bytes.

(** Storing a number into a byte keeps its low eight bits, as a write
    into a [Uint8Array] does. *)
Definition of_N (n : N) : byte :=
match Byte.of_N (N.land n 255) with
| Some b => b
| None => x00
end.

Definition xor (a b : byte) : byte :=
of_N (N.lxor (Byte.to_N a) (Byte.to_N b)).

(** Bytewise xor of two buffers, as long as the shorter one. *)
Fixpoint xor_list (a b : list byte) : list byte :=
match a, b with
| x :: a', y :: b' => xor x y :: xor_list a' b'
| _, _ => []
end.

(** Big-endian reading of a buffer as one unsigned integer. *)
Definition be_to_N (bs : list byte) : N :=
fold_left (fun acc b => N.lor (N.shiftl acc 8) (Byte.to_N b)) bs 0.

(** The [len] low-order bytes of [x], most significant first. *)
Fixpoint be_of_N (len : nat) (x : N) : list byte :=
match len with
| O => []
| S k => of_N (N.shiftr x (8 * N.of_nat k)) :: be_of_N k x
end.

(** Cuts a buffer into consecutive pieces of [n] bytes (the last one may
    be shorter).  The first argument bounds the number of pieces. *)
Fixpoint chunks_fuel {A} (fuel n : nat) (l : list A) : list (list A) :=
match fuel with
| O => []
| S f =>
  match l with
  | [] => []
  | _ => firstn n l :: chunks_fuel f n (skipn n l)
  end
end.

Definition chunks {A} (n : nat) (l : list A) : list (list A) :=
chunks_fuel (length l) n l.

Definition zeros (n : nat) : list byte := repeat x00 n.

Definition bytes_of_string (s : string) : list byte := list_byte_of_string s.

End Bytes.

(** ** SHA-256 (FIPS 180-4) *)

Module SHA256.

(** A 32-bit word lives in a machine integer; every operation that can
    carry out of bit 31 is followed by [mask32]. *)
Definition word : Set := int.

Definition mask32 (x : word) : word := Uint63.land x 0xFFFFFFFF%uint63.
Definition add32 (x y : word) : word := mask32 (Uint63.add x y).
Definition rotr (n : int) (x : word) : word :=
Uint63.lor (Uint63.lsr x n) (mask32 (Uint63.lsl x (Uint63.sub 32 n))).
Definition not32 (x : word) : word := Uint63.lxor x 0xFFFFFFFF%uint63.
Definition xor3 (x y z : word) : word := Uint63.lxor (Uint63.lxor x y) z.

Definition Ch (x y z : word) : word :=
Uint63.lxor (Uint63.land x y) (Uint63.land (not32 x) z).
Definition Maj (x y z : word) : word :=
xor3 (Uint63.land x y) (Uint63.land x z) (Uint63.land y z).
Definition bsig0 (x : word) : word := xor3 (rotr 2 x) (rotr 13 x) (rotr 22 x).
Definition bsig1 (x : word) : word := xor3 (rotr 6 x) (rotr 11 x) (rotr 25 x).
Definition ssig0 (x : word) : word := xor3 (rotr 7 x) (rotr 18 x) (Uint63.lsr x 3).
Definition ssig1 (x : word) : word := xor3 (rotr 17 x) (rotr 19 x) (Uint63.lsr x 10).

Definition word_of_N (n : N) : word := Uint63.of_Z (Z.of_N n).
Definition N_of_word (w : word) : N := Z.to_N (Uint63.to_Z w).

(** The round constants and the initial hash value are the first 32 bits
    of the fractional parts of the cube roots, respectively square roots,
    of the first primes; they are computed here from that definition. *)
Definition primes64 : list N :=
[ 2; 3; 5; 7; 11; 13; 17; 19; 23; 29; 31; 37; 41; 43; 47; 53;
  59; 61; 67; 71; 73; 79; 83; 89; 97; 101; 103; 107; 109; 113; 127; 131;
  137; 139; 149; 151; 157; 163; 167; 173; 179; 181; 191; 193; 197; 199;
  211; 223; 227; 229; 233; 239; 241; 251; 257; 263; 269; 271; 277; 281;
  283; 293; 307; 311 ].

Fixpoint cbrt_bits (bit : nat) (x r : N) : N :=
match bit with
| O => r
| S b =>
  let c := r + 2 ^ N.of_nat b in
  cbrt_bits b x (if c * c * c <=? x then c else r)
end.

Definition frac_cbrt32 (p : N) : N := cbrt_bits 40 (p * 2 ^ 96) 0 mod 2 ^ 32.
Definition frac_sqrt32 (p : N) : N := N.sqrt (p * 2 ^ 64) mod 2 ^ 32.

Definition K : list word :=
Eval vm_compute in map (fun p => word_of_N (frac_cbrt32 p)) primes64.
Definition H0 : list word :=
Eval vm_compute in map (fun p => word_of_N (frac_sqrt32 p)) (firstn 8 primes64).

(** Padding: a 1 bit, zeros up to 56 mod 64 bytes, the bit length on 8 bytes. *)
Definition pad (msg : list byte) : list byte :=
let l := length msg in
let k := ((64 - (l + 9) mod 64) mod 64)%nat in
msg ++ [x80] ++ Bytes.zeros k ++ Bytes.be_of_N 8 (N.of_nat l * 8).

Definition words_of_block (blk : list byte) : list word :=
map (fun c => word_of_N (Bytes.be_to_N c)) (Bytes.chunks 4 blk).

(** The message schedule, kept most recent word first: in [rev_w] the
    words W(t-1), W(t-2), ... precede each other, and the next word is
    ssig1 W(t-2) + W(t-7) + ssig0 W(t-15) + W(t-16). *)
Definition next_word (rev_w : list word) : word :=
match rev_w with
| _ :: w2 :: _ :: _ :: _ :: _ :: w7 :: _ :: _ :: _ :: _ :: _ :: _ :: _
  :: w15 :: w16 :: _ =>
  add32 (add32 (ssig1 w2) w7) (add32 (ssig0 w15) w16)
| _ => 0%uint63
end.

Fixpoint schedule (n : nat) (rev_w : list word) : list word :=
match n with
| O => rev_w
| S k => schedule k (next_word rev_w :: rev_w)
end.

(** The eight working variables, and the intermediate hash value. *)
Record hash_state : Set := St {
  ha : word; hb : word; hc : word; hd : word;
  he : word; hf : word; hg : word; hh : word
}.

Definition round (s : hash_state) (k w : word) : hash_state :=
let '(St a b c d e f g h) := s in
let t1 := add32 (add32 (add32 h (bsig1 e)) (add32 (Ch e f g) k)) w in
let t2 := add32 (bsig0 a) (Maj a b c) in
St (add32 t1 t2) a b c (add32 d t1) e f g.

Fixpoint rounds (ks ws : list word) (s : hash_state) : hash_state :=
match ks, ws with
| k :: ks', w :: ws' => rounds ks' ws' (round s k w)
| _, _ => s
end.

(** The compression of one block, given as its sixteen words. *)
Definition compress_words (s : hash_state) (w16 : list word) : hash_state :=
let w := rev (schedule 48 (rev w16)) in
let '(St a b c d e f g h) := rounds K w s in
let '(St a0 b0 c0 d0 e0 f0 g0 h0) := s in
St (add32 a0 a) (add32 b0 b) (add32 c0 c) (add32 d0 d)
   (add32 e0 e) (add32 f0 f) (add32 g0 g) (add32 h0 h).

Definition compress (s : hash_state) (blk : list byte) : hash_state :=
compress_words s (words_of_block blk).

Definition init_state : hash_state :=
let h i := nth i H0 0%uint63 in
St (h 0%nat) (h 1%nat) (h 2%nat) (h 3%nat) (h 4%nat) (h 5%nat) (h 6%nat) (h 7%nat).

Definition state_words (s : hash_state) : list word :=
let '(St a b c d e f g h) := s in [a; b; c; d; e; f; g; h].

(** A word, and a state, that fits in 32 bits. *)
Definition wf32 (w : word) : Prop := (Uint63.to_Z w < 2 ^ 32)%Z.

Definition wf_state (s : hash_state) : Prop := Forall wf32 (state_words s).

Definition digest_bytes (s : hash_state) : list byte :=
flat_map (fun w => Bytes.be_of_N 4 (N_of_word w)) (state_words s).

Definition sha256 (msg : list byte) : list byte :=
digest_bytes (fold_left compress (Bytes.chunks 64 (pad msg)) init_state).

End SHA256.

(** ** HMAC (RFC 2104) and PBKDF2 (RFC 8018) over SHA-256 *)

Module PBKDF2.

Definition block_size : nat := 64.

Definition hmac_key (key : list byte) : list byte :=
let k := if (block_size <? length key)%nat then SHA256.sha256 key else key in
k ++ Bytes.zeros (block_size - length k).

Definition hmac_sha256 (key msg : list byte) : list byte :=
let k := hmac_key key in
let ipad := map (Bytes.xor x36) k in
let opad := map (Bytes.xor x5c) k in
SHA256.sha256 (opad ++ SHA256.sha256 (ipad ++ msg)).

(** One step of the inner loop of F: from (U_j, U_1 xor ... xor U_j) to
    the same pair for j+1. *)
Definition F_step (P : list byte) (ut : list byte * list byte) :
  list byte * list byte :=
let u := hmac_sha256 P (fst ut) in
(u, Bytes.xor_list (snd ut) u).

(** F(P, S, c, i) = U_1 xor U_2 xor ... xor U_c. *)
Definition F (P S : list byte) (c : N) (i : N) : list byte :=
let u1 := hmac_sha256 P (S ++ Bytes.be_of_N 4 i) in
snd (N.iter (c - 1) (F_step P) (u1, u1)).

Definition hLen : nat := 32.

Definition pbkdf2 (P S : list byte) (c : N) (dkLen : nat) : list byte :=
let l := ((dkLen + hLen - 1) / hLen)%nat in
firstn dkLen (flat_map (fun i => F P S c (N.of_nat i)) (seq 1 l)).

(** The same function arranged for evaluation, as implementations do:
    the hash states reached after the two key pads are computed once,
    and each 32-byte U_j and the running xor are kept as eight words.
    The rest of a block that starts with a 32-byte value after a 64-byte
    pad is the 1 bit, zeros and the bit length 768. *)
Definition tail_bytes : list byte :=
x80 :: Bytes.zeros 23 ++ Bytes.be_of_N 8 768.

Definition tail_words : list SHA256.word :=
[0x80000000; 0; 0; 0; 0; 0; 0; 768]%uint63.

Definition hmac_words (i o u : SHA256.hash_state) : SHA256.hash_state :=
let inner := SHA256.compress_words i (SHA256.state_words u ++ tail_words) in
SHA256.compress_words o (SHA256.state_words inner ++ tail_words).

Definition xor_state (s t : SHA256.hash_state) : SHA256.hash_state :=
let '(SHA256.St a b c d e f g h) := s in
let '(SHA256.St a' b' c' d' e' f' g' h') := t in
SHA256.St (Uint63.lxor a a') (Uint63.lxor b b') (Uint63.lxor c c')
  (Uint63.lxor d d') (Uint63.lxor e e') (Uint63.lxor f f')
  (Uint63.lxor g g') (Uint63.lxor h h').

(** [seq_state s k] is [k]; it makes an evaluator that works by need
    compute the words of [s] before it goes on, so that the ten thousand
    steps are computed one after the other. *)
Definition seq_word {T} (w : SHA256.word) (k : T) : T :=
if Uint63.leb w w then k else k.

Definition seq_state {T} (s : SHA256.hash_state) (k : T) : T :=
let '(SHA256.St a b c d e f g h) := s in
seq_word a (seq_word b (seq_word c (seq_word d
  (seq_word e (seq_word f (seq_word g (seq_word h k))))))).

Definition F_words_step (i o : SHA256.hash_state)
  (ut : SHA256.hash_state * SHA256.hash_state) :
  SHA256.hash_state * SHA256.hash_state :=
seq_state (fst ut) (seq_state (snd ut)
  (let u := hmac_words i o (fst ut) in
   (u, xor_state (snd ut) u))).

Definition istate (P : list byte) : SHA256.hash_state :=
SHA256.compress SHA256.init_state (map (Bytes.xor x36) (hmac_key P)).

Definition ostate (P : list byte) : SHA256.hash_state :=
SHA256.compress SHA256.init_state (map (Bytes.xor x5c) (hmac_key P)).

(** U_1 = HMAC(P, S || INT(i)); its inner hash runs over a message of
    any length. *)
Definition inner1 (P S : list byte) (i : N) : SHA256.hash_state :=
fold_left SHA256.compress
  (Bytes.chunks 64
     (SHA256.pad (map (Bytes.xor x36) (hmac_key P) ++ S ++ Bytes.be_of_N 4 i)))
  SHA256.init_state.

Definition first_u (P S : list byte) (i : N) : SHA256.hash_state :=
SHA256.compress_words (ostate P) (SHA256.state_words (inner1 P S i) ++ tail_words).

(** A pair (U_j, running xor) in bytes and the same pair in words. *)
Definition same_pair (bs : list byte * list byte)
  (ws : SHA256.hash_state * SHA256.hash_state) : Prop :=
fst bs = SHA256.digest_bytes (fst ws) /\
snd bs = SHA256.digest_bytes (snd ws) /\
SHA256.wf_state (fst ws).

Definition F_words (P S : list byte) (c : N) (i : N) : list byte :=
SHA256.digest_bytes
  (snd (N.iter (c - 1) (F_words_step (istate P) (ostate P))
          (first_u P S i, first_u P S i))).

End PBKDF2.

(** ** AES-256 forward cipher (FIPS 197) *)

Module AES.

(** Arithmetic in GF(2^8) modulo x^8 + x^4 + x^3 + x + 1. *)
Definition xtime (a : N) : N :=
let d := N.shiftl a 1 in
if N.testbit a 7 then N.lxor (N.land d 255) 0x1b else d.

Fixpoint gmul_bits (bits : nat) (a b : N) : N :=
match bits with
| O => 0
| S k =>
  N.lxor (if N.odd b then a else 0) (gmul_bits k (xtime a) (N.shiftr b 1))
end.

Definition gmul (a b : N) : N := gmul_bits 8 a b.

Definition gsquare (a : N) : N := gmul a a.

(** The multiplicative inverse is a^254 (and 0 for 0). *)
Definition ginv (a : N) : N :=
let a2 := gsquare a in
let a4 := gsquare a2 in
let a8 := gsquare a4 in
let a16 := gsquare a8 in
let a32 := gsquare a16 in
let a64 := gsquare a32 in
let a128 := gsquare a64 in
gmul a128 (gmul a64 (gmul a32 (gmul a16 (gmul a8 (gmul a4 a2))))).

Definition rotl8 (x n : N) : N :=
N.land (N.lor (N.shiftl x n) (N.shiftr x (8 - n))) 255.

(** The S-box: inversion followed by the affine map of section 5.1.1. *)
Definition sbox_entry (a : N) : N :=
let b := ginv a in
N.lxor (N.lxor (N.lxor (N.lxor (N.lxor b (rotl8 b 1)) (rotl8 b 2)) (rotl8 b 3))
  (rotl8 b 4)) 0x63.

Definition SBOX : list N :=
Eval vm_compute in map (fun i => sbox_entry (N.of_nat i)) (seq 0 256).

Definition sub_byte (a : N) : N := nth (N.to_nat a) SBOX 0.

(** A word is a list of four byte values, a round key or a state a list
    of sixteen, column after column. *)
Definition xor_bytes (a b : list N) : list N :=
map (fun p => N.lxor (fst p) (snd p)) (combine a b).

Definition rot_word (w : list N) : list N := skipn 1 w ++ firstn 1 w.
Definition sub_word (w : list N) : list N := map sub_byte w.

Fixpoint rcon (i : nat) : N :=
match i with
| O => 0
| S O => 1
| S k => xtime (rcon k)
end.

Definition Nk : nat := 8.
Definition Nr : nat := 14.

(** Key expansion; [rev_w] holds the words produced so far, last first,
    and [i] is the index of the next word. *)
Fixpoint expand (n i : nat) (rev_w : list (list N)) : list (list N) :=
match n with
| O => rev_w
| S k =>
  let prev := nth 0 rev_w [] in
  let temp :=
    if (i mod Nk =? 0)%nat
    then xor_bytes (sub_word (rot_word prev)) [rcon (i / Nk); 0; 0; 0]
    else if (i mod Nk =? 4)%nat then sub_word prev
    else prev in
  expand k (S i) (xor_bytes (nth (Nk - 1) rev_w []) temp :: rev_w)
end.

Definition key_schedule (key : list byte) : list (list N) :=
let w0 := Bytes.chunks 4 (map Byte.to_N key) in
Bytes.chunks 16 (concat (rev (expand (4 * (Nr + 1) - Nk) Nk (rev w0)))).

Definition shift_rows (s : list N) : list N :=
map (fun i => nth ((i + 4 * (i mod 4)) mod 16) s 0) (seq 0 16).

Definition mix_column (c : list N) : list N :=
let a i := nth i c 0 in
[ N.lxor (N.lxor (gmul 2 (a 0%nat)) (gmul 3 (a 1%nat))) (N.lxor (a 2%nat) (a 3%nat));
  N.lxor (N.lxor (a 0%nat) (gmul 2 (a 1%nat))) (N.lxor (gmul 3 (a 2%nat)) (a 3%nat));
  N.lxor (N.lxor (a 0%nat) (a 1%nat)) (N.lxor (gmul 2 (a 2%nat)) (gmul 3 (a 3%nat)));
  N.lxor (N.lxor (gmul 3 (a 0%nat)) (a 1%nat)) (N.lxor (a 2%nat) (gmul 2 (a 3%nat))) ].

Definition mix_columns (s : list N) : list N :=
flat_map mix_column (Bytes.chunks 4 s).

Definition full_round (s rk : list N) : list N :=
xor_bytes (mix_columns (shift_rows (map sub_byte s))) rk.

Definition final_round (s rk : list N) : list N :=
xor_bytes (shift_rows (map sub_byte s)) rk.

Definition cipher (rks : list (list N)) (input : list N) : list N :=
let s0 := xor_bytes input (nth 0 rks []) in
let s := fold_left full_round (firstn (Nr - 1) (skipn 1 rks)) s0 in
final_round s (nth Nr rks []).

(** Blocks travel as 128-bit numbers (first byte most significant). *)
Definition block_of_bytes (bs : list N) : N :=
fold_left (fun acc b => N.lor (N.shiftl acc 8) b) bs 0.

Definition encrypt_block (rks : list (list N)) (blk : N) : N :=
block_of_bytes (cipher rks (map Byte.to_N (Bytes.be_of_N 16 blk))).

End AES.

(** ** Galois/Counter Mode (NIST SP 800-38D) *)

Module GCM.

Definition R : N := N.shiftl 0xe1 120.

(** Multiplication in GF(2^128); bit 0 of the standard is the most
    significant bit of the number. *)
Fixpoint mul_bits (n : nat) (x z v : N) : N :=
match n with
| O => z
| S k =>
  let z' := if N.testbit x (N.of_nat k) then N.lxor z v else z in
  let v' := if N.odd v then N.lxor (N.shiftr v 1) R else N.shiftr v 1 in
  mul_bits k x z' v'
end.

Definition gf_mul (x y : N) : N := mul_bits 128 x 0 y.

Definition ghash (h : N) (blocks : list N) : N :=
fold_left (fun y x => gf_mul (N.lxor y x) h) blocks 0.

(** Zero bytes that complete a buffer to a whole number of blocks. *)
Definition pad16 (bs : list byte) : list byte :=
bs ++ Bytes.zeros ((16 - length bs mod 16) mod 16).

Definition blocks_of (bs : list byte) : list N :=
map Bytes.be_to_N (Bytes.chunks 16 bs).

Definition bitlen (bs : list byte) : N := 8 * N.of_nat (length bs).

(** The pre-counter block J0. *)
Definition j0 (h : N) (iv : list byte) : N :=
if (length iv =? 12)%nat
then Bytes.be_to_N iv * 2 ^ 32 + 1
else ghash h (blocks_of (pad16 iv) ++ [bitlen iv]).

Definition inc32 (cb : N) : N :=
N.lor (N.shiftl (N.shiftr cb 32) 32) ((cb + 1) mod 2 ^ 32).

(** [n] blocks of key stream from the counter block [cb] on. *)
Fixpoint keystream (rks : list (list N)) (n : nat) (cb : N) : list byte :=
match n with
| O => []
| S k => Bytes.be_of_N 16 (AES.encrypt_block rks cb) ++ keystream rks k (inc32 cb)
end.

Definition gctr (rks : list (list N)) (icb : N) (x : list byte) : list byte :=
Bytes.xor_list x (keystream rks ((length x + 15) / 16) icb).

(** The full 16-byte tag over associated data [aad] and ciphertext [c]. *)
Definition tag (rks : list (list N)) (iv aad c : list byte) : list byte :=
let h := AES.encrypt_block rks 0 in
let s := ghash h (blocks_of (pad16 aad) ++ blocks_of (pad16 c)
                  ++ [bitlen aad * 2 ^ 64 + bitlen c]) in
Bytes.be_of_N 16 (N.lxor s (AES.encrypt_block rks (j0 h iv))).

Definition crypt (rks : list (list N)) (iv x : list byte) : list byte :=
gctr rks (inc32 (j0 (AES.encrypt_block rks 0) iv)) x.

End GCM.

(** ** JavaScript strings and the codecs of Node's [Buffer] *)

Module JS.

(** A JavaScript string is a sequence of UTF-16 code units. *)
Definition code_unit : Set := N.
Definition js_string : Set := list code_unit.

(** An ASCII literal as a JavaScript string. *)
Definition lit (s : string) : js_string := map Byte.to_N (list_byte_of_string s).

Definition is_high_surrogate (c : code_unit) : bool := (0xD800 <=? c) && (c <=? 0xDBFF).
Definition is_low_surrogate (c : code_unit) : bool := (0xDC00 <=? c) && (c <=? 0xDFFF).

(** [String.prototype.isWellFormed]: every code unit has 16 bits and
    every surrogate is half of a pair. *)
Fixpoint well_formed (s : js_string) : bool :=
match s with
| [] => true
| c :: rest =>
  if is_high_surrogate c then
    match rest with
    | d :: rest' => is_low_surrogate d && well_formed rest'
    | [] => false
    end
  else negb (is_low_surrogate c) && (c <? 0x10000) && well_formed rest
end.

Definition REPLACEMENT : code_unit := 0xFFFD.

Definition utf8_of_code_point (cp : N) : list byte :=
if cp <? 0x80 then [Bytes.of_N cp]
else if cp <? 0x800 then
  [Bytes.of_N (0xC0 + cp / 64); Bytes.of_N (0x80 + cp mod 64)]
else if cp <? 0x10000 then
  [Bytes.of_N (0xE0 + cp / 4096); Bytes.of_N (0x80 + (cp / 64) mod 64);
   Bytes.of_N (0x80 + cp mod 64)]
else
  [Bytes.of_N (0xF0 + cp / 262144); Bytes.of_N (0x80 + (cp / 4096) mod 64);
   Bytes.of_N (0x80 + (cp / 64) mod 64); Bytes.of_N (0x80 + cp mod 64)].

Definition code_point_of_pair (hi lo : code_unit) : N :=
0x10000 + (hi - 0xD800) * 1024 + (lo - 0xDC00).

(** [Buffer.from(s, 'utf8')]: a surrogate pair is one code point, a lone
    surrogate is written as U+FFFD. *)
Fixpoint utf8_encode (s : js_string) : list byte :=
match s with
| [] => []
| c :: rest =>
  if is_high_surrogate c then
    match rest with
    | d :: rest' =>
      if is_low_surrogate d
      then utf8_of_code_point (code_point_of_pair c d) ++ utf8_encode rest'
      else utf8_of_code_point REPLACEMENT ++ utf8_encode rest
    | [] => utf8_of_code_point REPLACEMENT
    end
  else if is_low_surrogate c then utf8_of_code_point REPLACEMENT ++ utf8_encode rest
  else utf8_of_code_point c ++ utf8_encode rest
end.

(** A Unicode scalar value: a code point that is not a surrogate. *)
Definition scalar (cp : N) : Prop :=
cp < 0xD800 \/ (0xE000 <= cp /\ cp < 0x110000).

Definition utf16_of_code_point (cp : N) : js_string :=
if cp <? 0x10000 then [cp]
else [0xD800 + (cp - 0x10000) / 1024; 0xDC00 + (cp - 0x10000) mod 1024].

Definition in_range (lo hi : N) (b : byte) : bool :=
(lo <=? Byte.to_N b) && (Byte.to_N b <=? hi).

Definition is_cont (b : byte) : bool := in_range 0x80 0xBF b.
Definition cont_bits (b : byte) : N := Byte.to_N b - 0x80.

(** The byte range allowed right after the lead byte of a 3- or 4-byte
    sequence (it rules out overlong forms, surrogates and code points
    above U+10FFFF). *)
Definition second_ok (lead : N) (b : byte) : bool :=
if lead =? 0xE0 then in_range 0xA0 0xBF b
else if lead =? 0xED then in_range 0x80 0x9F b
else if lead =? 0xF0 then in_range 0x90 0xBF b
else if lead =? 0xF4 then in_range 0x80 0x8F b
else is_cont b.

(** [buf.toString('utf8')]: each maximal ill-formed part becomes one
    U+FFFD and decoding resumes at the byte that broke the sequence. *)
Fixpoint utf8_decode (bs : list byte) : js_string :=
match bs with
| [] => []
| b0 :: r1 =>
  let n0 := Byte.to_N b0 in
  if n0 <? 0x80 then n0 :: utf8_decode r1
  else if (0xC2 <=? n0) && (n0 <=? 0xDF) then
    match r1 with
    | [] => [REPLACEMENT]
    | b1 :: r2 =>
      if is_cont b1
      then ((n0 - 0xC0) * 64 + cont_bits b1) :: utf8_decode r2
      else REPLACEMENT :: utf8_decode r1
    end
  else if (0xE0 <=? n0) && (n0 <=? 0xEF) then
    match r1 with
    | [] => [REPLACEMENT]
    | b1 :: r2 =>
      if second_ok n0 b1 then
        match r2 with
        | [] => [REPLACEMENT]
        | b2 :: r3 =>
          if is_cont b2
          then ((n0 - 0xE0) * 4096 + cont_bits b1 * 64 + cont_bits b2)
               :: utf8_decode r3
          else REPLACEMENT :: utf8_decode r2
        end
      else REPLACEMENT :: utf8_decode r1
    end
  else if (0xF0 <=? n0) && (n0 <=? 0xF4) then
    match r1 with
    | [] => [REPLACEMENT]
    | b1 :: r2 =>
      if second_ok n0 b1 then
        match r2 with
        | [] => [REPLACEMENT]
        | b2 :: r3 =>
          if is_cont b2 then
            match r3 with
            | [] => [REPLACEMENT]
            | b3 :: r4 =>
              if is_cont b3
              then utf16_of_code_point
                     ((n0 - 0xF0) * 262144 + cont_bits b1 * 4096
                      + cont_bits b2 * 64 + cont_bits b3)
                   ++ utf8_decode r4
              else REPLACEMENT :: utf8_decode r3
            end
          else REPLACEMENT :: utf8_decode r2
        end
      else REPLACEMENT :: utf8_decode r1
    end
  else REPLACEMENT :: utf8_decode r1
end.

(** *** base64 *)

Definition alphabet : js_string :=
Eval vm_compute in
lit "ABCDEFGHIJKLMNOPQRSTUVWXYZabcdefghijklmnopqrstuvwxyz0123456789+/".

Definition enc (sextet : N) : code_unit := nth (N.to_nat sextet) alphabet 0.
Definition PAD : code_unit := 61.

(** [buf.toString('base64')]. *)
Fixpoint base64_encode (bs : list byte) : js_string :=
match bs with
| [] => []
| [a] =>
  let a := Byte.to_N a in
  [enc (a / 4); enc (a mod 4 * 16); PAD; PAD]
| [a; b] =>
  let a := Byte.to_N a in
  let b := Byte.to_N b in
  [enc (a / 4); enc (a mod 4 * 16 + b / 16); enc (b mod 16 * 4); PAD]
| a :: b :: c :: rest =>
  let a := Byte.to_N a in
  let b := Byte.to_N b in
  let c := Byte.to_N c in
  enc (a / 4) :: enc (a mod 4 * 16 + b / 16) :: enc (b mod 16 * 4 + c / 64)
  :: enc (c mod 64) :: base64_encode rest
end.

(** The decoder's table: the value of a character of the standard or of
    the URL-safe alphabet, nothing for any other character. *)
Definition unbase64 (c : N) : option N :=
if (65 <=? c) && (c <=? 90) then Some (c - 65)
else if (97 <=? c) && (c <=? 122) then Some (c - 71)
else if (48 <=? c) && (c <=? 57) then Some (c + 4)
else if (c =? 43) || (c =? 45) then Some 62
else if (c =? 47) || (c =? 95) then Some 63
else None.

(** The decoder reads the low byte of each code unit, skips what is not
    in its table and stops at the first [=]. *)
Fixpoint sextets (s : js_string) : list N :=
match s with
| [] => []
| c :: rest =>
  let c8 := c mod 256 in
  match unbase64 c8 with
  | Some v => v :: sextets rest
  | None => if c8 =? PAD then [] else sextets rest
  end
end.

Fixpoint bytes_of_sextets (v : list N) : list byte :=
match v with
| a :: b :: c :: d :: rest =>
  Bytes.of_N (a * 4 + b / 16) :: Bytes.of_N (b mod 16 * 16 + c / 4)
  :: Bytes.of_N (c mod 4 * 64 + d) :: bytes_of_sextets rest
| [a; b; c] => [Bytes.of_N (a * 4 + b / 16); Bytes.of_N (b mod 16 * 16 + c / 4)]
| [a; b] => [Bytes.of_N (a * 4 + b / 16)]
| _ => []
end.

(** [Buffer.from(s, 'base64')]; it never fails. *)
Definition base64_decode (s : js_string) : list byte :=
bytes_of_sextets (sextets s).

(** [buf.subarray(start, end)] and [buf.subarray(start)], for indices
    that are not negative; both clamp to the buffer. *)
Definition subarray (buf : list byte) (start stop : nat) : list byte :=
firstn (stop - start) (skipn start buf).
Definition subarray_from (buf : list byte) (start : nat) : list byte :=
skipn start buf.

(** [a || b] where [a] is a string or [undefined] and [b] a string: the
    empty string is falsy like [undefined]. *)
Definition or_else (a : option js_string) (b : js_string) : js_string :=
match a with
| Some (c :: s) => c :: s
| _ => b
end.

(** [a === b] on two strings: the same code units in the same order. *)
Fixpoint strict_equal (a b : js_string) : bool :=
match a, b with
| [], [] => true
| c :: a', d :: b' => (c =? d) && strict_equal a' b'
| _, _ => false
end.

(** A string literal of a source file, which Node reads as UTF-8. *)
Definition text (s : string) : js_string := utf8_decode (list_byte_of_string s).

Definition quote : js_string := [34].
Definition newline : js_string := [10].

(** [`${n}`] for a number that is a non-negative integer below 10^21: its
    decimal digits. *)
Definition number_to_string (n : N) : js_string :=
lit (NilZero.string_of_uint (N.to_uint n)).

End JS.

(** ** The [crypto] calls of the module *)

Module Node.

(** What the [crypto] calls of [decryptPassword] throw.  Each is a plain
    JavaScript error object; the module declares no error class. *)
Inductive error : Set :=
| InvalidIV                       (* createDecipheriv, empty iv *)
| InvalidAuthTagLength (n : nat)  (* setAuthTag *)
| UnableToAuthenticate.           (* final *)


Definition error_message (e : error) : string :=
match e with
| InvalidIV => "Invalid initialization vector"
| InvalidAuthTagLength n =>
  String.append "Invalid authentication tag length: "
    (NilZero.string_of_uint (Nat.to_uint n))
| UnableToAuthenticate => "Unsupported state or unable to authenticate data"
end.

Inductive result (A : Type) : Type :=
| Ok (a : A)
| Throw (e : error).
Arguments Ok {A} a.
Arguments Throw {A} e.

Definition bind {A B} (r : result A) (k : A -> result B) : result B :=
match r with
| Ok a => k a
| Throw e => Throw e
end.

(** [crypto.randomBytes(n)], reading the process's random source. *)
Definition randomBytes (rng : nat -> byte) (n : nat) : list byte :=
map rng (seq 0 n).

(** [crypto.pbkdf2Sync(password, salt, iterations, keylen, 'sha256')];
    string arguments are taken in UTF-8. *)
Definition pbkdf2Sync (password salt : JS.js_string) (iterations : N)
  (keylen : nat) : list byte :=
PBKDF2.pbkdf2 (JS.utf8_encode password) (JS.utf8_encode salt) iterations keylen.

(** A cipher object of ['aes-256-gcm'] after [setAAD]. *)
Record gcm : Type := Gcm {
  round_keys : list (list N);
  gcm_iv : list byte;
  gcm_aad : list byte
}.

Definition createCipheriv (key iv aad : list byte) : gcm :=
Gcm (AES.key_schedule key) iv aad.

(** [cipher.update(s, 'utf8', 'base64')] hands out the base64 text of the
    whole 3-byte groups produced and keeps the rest for [final]. *)
Definition update_base64 (c : gcm) (plain : JS.js_string) :
  list byte * JS.js_string * list byte :=
let out := GCM.crypt (round_keys c) (gcm_iv c) (JS.utf8_encode plain) in
let whole := (length out / 3 * 3)%nat in
(out, JS.base64_encode (firstn whole out), skipn whole out).

Definition final_base64 (kept : list byte) : JS.js_string :=
JS.base64_encode kept.

Definition getAuthTag (c : gcm) (out : list byte) : list byte :=
GCM.tag (round_keys c) (gcm_iv c) (gcm_aad c) out.

Definition createDecipheriv (key iv aad : list byte) : result gcm :=
match iv with
| [] => Throw InvalidIV
| _ => Ok (Gcm (AES.key_schedule key) iv aad)
end.

Definition valid_tag_length (n : nat) : bool :=
existsb (Nat.eqb n) [4; 8; 12; 13; 14; 15; 16]%nat.

Definition setAuthTag (authTag : list byte) : result (list byte) :=
if valid_tag_length (length authTag) then Ok authTag
else Throw (InvalidAuthTagLength (length authTag)).

(** [decipher.update(buf, undefined, 'utf8')] followed by
    [decipher.final('utf8')]: the text of the deciphered bytes, handed
    out only if the tag computed over the input equals the expected one
    on the expected tag's length. *)
Definition tag_matches (c : gcm) (authTag encrypted : list byte) : bool :=
if list_eq_dec Byte.byte_eq_dec
     (firstn (length authTag) (getAuthTag c encrypted)) authTag
then true else false.

Definition update_final_utf8 (c : gcm) (authTag encrypted : list byte) :
  result JS.js_string :=
let decrypted := JS.utf8_decode (GCM.crypt (round_keys c) (gcm_iv c) encrypted) in
if tag_matches c authTag encrypted then Ok decrypted
else Throw UnableToAuthenticate.

End Node.

(** ** Console output, exceptions and [process.exit] *)

Module Process.
Import JS Node.

Inductive stream : Set := Stdout | Stderr.

(** What was written so far: one entry per call of [console.log] (to
    the standard output) or [console.error] (to the standard error). *)
Definition output : Set := list (stream * js_string).

(** How a piece of program ends: it returns, it throws, or it stops the
    process with a status. *)
Inductive outcome (A : Type) : Type :=
| Returned (a : A)
| Thrown (e : error)
| Exited (code : N).
Arguments Returned {A} a.
Arguments Thrown {A} e.
Arguments Exited {A} code.

Definition io (A : Type) : Type := (output * outcome A)%type.

Definition ret {A} (a : A) : io A := ([], Returned a).

Definition seq_io {A B} (m : io A) (k : A -> io B) : io B :=
match m with
| (out, Returned a) => let (out', r) := k a in (out ++ out', r)
| (out, Thrown e) => (out, Thrown e)
| (out, Exited code) => (out, Exited code)
end.

Declare Scope io_scope.
Delimit Scope io_scope with io.
Notation "x <- m ;; k" := (seq_io m (fun x => k))
  (at level 61, m at next level, right associativity) : io_scope.
Notation "m ;; k" := (seq_io m (fun _ => k))
  (at level 61, right associativity) : io_scope.

Definition console_log (s : js_string) : io unit := ([(Stdout, s)], Returned tt).
Definition console_error (s : js_string) : io unit := ([(Stderr, s)], Returned tt).
Definition process_exit {A} (code : N) : io A := ([], Exited code).

(** A call of a function that returns or throws and writes nothing. *)
Definition call {A} (r : result A) : io A :=
match r with
| Ok a => ret a
| Throw e => ([], Thrown e)
end.

(** [try { body } catch (error) { handler }] *)
Definition try_catch {A} (body : io A) (handler : error -> io A) : io A :=
match body with
| (out, Thrown e) => let (out', r) := handler e in (out ++ out', r)
| _ => body
end.

(** The status of the process when the program is the whole script: 0
    when it runs to its end, 1 for an exception nobody caught. *)
Definition exit_status {A} (m : io A) : N :=
match snd m with
| Returned _ => 0
| Thrown _ => 1
| Exited code => code
end.

Definition written {A} (m : io A) : output := fst m.

(** The lines written to one of the two streams. *)
Definition on_stream (t : stream) (out : output) : list js_string :=
map snd (filter (fun l => match fst l, t with
                          | Stdout, Stdout | Stderr, Stderr => true
                          | _, _ => false
                          end) out).

End Process.

(** ** utils/encryption.ts *)

Module Encryption.
Import JS Node.

(** [process.env]: the variables of the process's environment, each a
    string or [undefined]. *)
Definition process_env : Set := string -> option js_string.

Definition PLAYWRIGHT_ENCRYPTION_KEY : string := "PLAYWRIGHT_ENCRYPTION_KEY".

(** An environment where nothing is set, and the setting of a variable. *)
Definition no_env : process_env := fun _ => None.
Definition setenv (name : string) (value : js_string) (env : process_env) :
  process_env :=
fun n => if String.eqb n name then Some value else env n.

Definition DEFAULT_KEY : js_string :=
lit "playwright-test-key-change-in-production".

Definition AAD : list byte := utf8_encode (lit "playwright-test").

Definition deriveKey (password : js_string) : list byte :=
let salt := lit "playwright-salt" in
pbkdf2Sync password salt 10000 32.

(** [encryptionKey || process.env.PLAYWRIGHT_ENCRYPTION_KEY || DEFAULT_KEY] *)
Definition resolveKey (env : process_env) (encryptionKey : option js_string) :
  js_string :=
or_else encryptionKey (or_else (env PLAYWRIGHT_ENCRYPTION_KEY) DEFAULT_KEY).

(** The envelope: [Buffer.concat([iv, authTag, encrypted]).toString('base64')]
    and its reading back by [subarray]. *)
Definition envelope_encode (iv authTag encrypted : list byte) : js_string :=
base64_encode (iv ++ authTag ++ encrypted).

Definition envelope_decode (s : js_string) :
  list byte * list byte * list byte :=
let combined := base64_decode s in
(subarray combined 0 16, subarray combined 16 32, subarray_from combined 32).

Definition encryptPassword (env : process_env) (rng : nat -> byte)
  (password : js_string) (encryptionKey : option js_string) : js_string :=
let key := resolveKey env encryptionKey in
let derivedKey := deriveKey key in
let iv := randomBytes rng 16 in
let cipher := createCipheriv derivedKey iv AAD in
let '(out, text, kept) := update_base64 cipher password in
let encrypted := text ++ final_base64 kept in
let authTag := getAuthTag cipher out in
envelope_encode iv authTag (base64_decode encrypted).

Definition decryptPassword (env : process_env)
  (encryptedPassword : js_string) (encryptionKey : option js_string) :
  result js_string :=
let key := resolveKey env encryptionKey in
let derivedKey := deriveKey key in
let '(iv, authTag, encrypted) := envelope_decode encryptedPassword in
bind (createDecipheriv derivedKey iv AAD) (fun decipher =>
bind (setAuthTag authTag) (fun authTag =>
update_final_utf8 decipher authTag encrypted)).

(** The three parts [encryptPassword] puts in the envelope. *)
Definition sealed_iv (rng : nat -> byte) : list byte := randomBytes rng 16.

Definition sealed_text (key : js_string) (rng : nat -> byte) (p : js_string) :
  list byte :=
GCM.crypt (AES.key_schedule (deriveKey key)) (sealed_iv rng) (utf8_encode p).

Definition sealed_tag (key : js_string) (rng : nat -> byte) (p : js_string) :
  list byte :=
GCM.tag (AES.key_schedule (deriveKey key)) (sealed_iv rng) AAD
  (sealed_text key rng p).

Import Process.
Local Open Scope io_scope.

Definition SUCCESS : js_string := text "✅ SUCCESS".
Definition FAILED : js_string := text "❌ FAILED".

Definition generateEncryptedPassword (env : process_env) (rng : nat -> byte)
  (plainPassword : js_string) : io js_string :=
console_log (lit "Original: " ++ plainPassword) ;;
let encrypted := encryptPassword env rng plainPassword None in
console_log (lit "Encrypted: " ++ encrypted) ;;
(* Verify decryption works *)
decrypted <- call (decryptPassword env encrypted None) ;;
console_log (lit "Decrypted: " ++ decrypted) ;;
console_log (lit "Verification: "
             ++ (if strict_equal plainPassword decrypted then SUCCESS else FAILED)) ;;
ret encrypted.

End Encryption.

(** ** utils/constants.ts: the stored credential *)

Module Constants.
Import JS Node Encryption.

(** [CREDENTIALS.OPERATOR.encryptedPassword] *)
Definition encryptedPassword : js_string :=
lit "23UhnRdMcwuzI/sLH2rAOkolHrAClrUnB6VBP8/394u1xMjvXXCcrOhw+LM=".

(** [CREDENTIALS.OPERATOR.getPassword] *)
Definition getPassword (env : process_env) : result js_string :=
decryptPassword env encryptedPassword None.

End Constants.

(** ** scripts/encrypt-password.ts and scripts/encrypt-password.js *)

Module Script.
Import JS Node Process Encryption.
Local Open Scope io_scope.

(** The two scripts differ in the last line of their usage text only. *)
Definition usage_ts : js_string :=
lit "   or: npx ts-node scripts/encrypt-password.ts " ++ quote
++ lit "your-password-here" ++ quote.
Definition usage_js : js_string :=
lit "   or: node scripts/encrypt-password.js " ++ quote
++ lit "your-password-here" ++ quote.

(** The script, given [process.argv].  [!password] holds for a missing
    argument and for the empty string. *)
Definition encrypt_password (usage : js_string) (env : process_env)
  (rng : nat -> byte) (argv : list js_string) : io unit :=
match nth_error argv 2 with
| None | Some [] =>
  console_error (text "❌ Error: Please provide a password to encrypt") ;;
  console_log (lit "Usage: npm run encrypt-password " ++ quote
               ++ lit "your-password-here" ++ quote) ;;
  console_log usage ;;
  process_exit 1
| Some password =>
  console_log (text "🔐 Password Encryption Utility") ;;
  console_log (lit "================================") ;;
  try_catch
    (encrypted <- generateEncryptedPassword env rng password ;;
     console_log (newline
                  ++ text "📝 Copy this encrypted password to your constants.ts file:") ;;
     console_log (lit "encryptedPassword: '" ++ encrypted ++ lit "'") ;;
     console_log (newline ++ text "⚠️  Security Notes:") ;;
     console_log (lit "- Store your encryption key in environment variable PLAYWRIGHT_ENCRYPTION_KEY") ;;
     console_log (lit "- Never commit plain text passwords to version control") ;;
     console_log (lit "- Use different encryption keys for different environments"))
    (fun error =>
     console_error (text "❌ Encryption failed:" ++ lit " "
                    ++ lit (error_message error)) ;;
     process_exit 1)
end.

Definition encrypt_password_ts := encrypt_password usage_ts.
Definition encrypt_password_js := encrypt_password usage_js.

End Script.

(** ** utils/helpers.ts: the names of test data *)

Module Helpers.
Import JS.

(** Each function reads the clock once; [now] is what [Date.now()]
    returned, in milliseconds. *)
Definition generateClientName (now : N) : js_string :=
lit "Testing-PW-Clients-" ++ number_to_string now.

Definition generateEntityName (now : N) : js_string :=
lit "Testing-PW-Entity-" ++ number_to_string now.

Definition generateTimestamp (now : N) : js_string := number_to_string now.

End Helpers.

(** ** Notions of the specification *)

Module Spec.
Import JS.

(** Text that is valid base64 in the sense of RFC 4648: groups of four
    characters of the standard alphabet, the last group possibly ending
    in one or two [=]. *)
Definition in_alphabet (c : code_unit) : bool := existsb (N.eqb c) alphabet.

Fixpoint valid_base64 (s : js_string) : bool :=
match s with
| [] => true
| a :: b :: c :: d :: rest =>
  in_alphabet a && in_alphabet b &&
  match rest with
  | [] =>
    (in_alphabet c && (in_alphabet d || (d =? PAD))) || ((c =? PAD) && (d =? PAD))
  | _ => in_alphabet c && in_alphabet d && valid_base64 rest
  end
| _ => false
end.

(** [String.prototype.toWellFormed]: every surrogate that is not half of
    a pair is replaced by U+FFFD. *)
Fixpoint toWellFormed (s : js_string) : js_string :=
match s with
| [] => []
| c :: rest =>
  if is_high_surrogate c then
    match rest with
    | d :: rest' =>
      if is_low_surrogate d then c :: d :: toWellFormed rest'
      else REPLACEMENT :: toWellFormed rest
    | [] => [REPLACEMENT]
    end
  else if is_low_surrogate c then REPLACEMENT :: toWellFormed rest
  else c :: toWellFormed rest
end.


(** A string of 16-bit code units, as every JavaScript string is. *)
Definition code_units (s : js_string) : Prop := Forall (fun c => c < 0x10000) s.

End Spec.

(** ** Sample inputs *)

Module Samples.
Import JS.

(** Random sources: one that always yields the same byte, and one that
    differs from it after the sixteenth byte only. *)
Definition constant_rng (b : byte) : nat -> byte := fun _ => b.
Definition late_rng (b c : byte) : nat -> byte :=
fun i => if (i <? 16)%nat then b else c.

(** The text h, e-acute, euro sign, and an emoji outside the basic plane. *)
Definition mixed_text : js_string := [0x68; 0xE9; 0x20AC; 0xD83D; 0xDE00].

(** A string made of one unpaired surrogate. *)
Definition lone_surrogate : js_string := [0xD800].

(** The stored credential with the lowest bit of its first ciphertext
    byte (byte 32 of the envelope) flipped. *)
Definition tampered : js_string :=
lit "23UhnRdMcwuzI/sLH2rAOkolHrAClrUnB6VBP8/394u0xMjvXXCcrOhw+LM=".

(** The stored credential followed by a character that is not base64. *)
Definition with_junk : js_string := Constants.encryptedPassword ++ lit "!".

(** Valid base64 of twenty zero bytes. *)
Definition twenty_bytes : js_string := lit "AAAAAAAAAAAAAAAAAAAAAAAAAAA=".

End Samples.

(* ================================================================== *)
(** * Part II: properties *)
(* ================================================================== *)

(** Linear arithmetic with division and remainder by constants. *)
Ltac div_lia := Zify.zify; Z.to_euclidean_division_equations; lia.

(** ** Bytes *)

Module BytesFacts.
Import Bytes.

Lemma to_N_lt (b : byte) : Byte.to_N b < 256.
Proof. pose proof (Byte.to_N_bounded b). lia. Qed.

Lemma land_255 (n : N) : N.land n 255 = n mod 256.
Proof. change 255 with (N.ones 8). now rewrite N.land_ones. Qed.

Lemma to_N_of_N_land (n : N) : Byte.to_N (of_N n) = N.land n 255.
Proof.
  unfold of_N. destruct (Byte.of_N (N.land n 255)) as [b|] eqn:E.
  - now apply Byte.to_of_N.
  - apply Byte.of_N_None_iff in E. rewrite land_255 in E.
    pose proof (N.mod_lt n 256). lia.
Qed.

Lemma to_N_of_N (n : N) : n < 256 -> Byte.to_N (of_N n) = n.
Proof.
  intros H. rewrite to_N_of_N_land, land_255. now apply N.mod_small.
Qed.

Lemma of_N_to_N (b : byte) : of_N (Byte.to_N b) = b.
Proof.
  unfold of_N. rewrite land_255, N.mod_small by apply to_N_lt.
  now rewrite Byte.of_to_N.
Qed.

Lemma to_N_inj (a b : byte) : Byte.to_N a = Byte.to_N b -> a = b.
Proof. intros H. rewrite <- (of_N_to_N a), <- (of_N_to_N b). now rewrite H. Qed.

Lemma land_255_to_N (b : byte) : N.land (Byte.to_N b) 255 = Byte.to_N b.
Proof. rewrite land_255. apply N.mod_small, to_N_lt. Qed.

Lemma land_lxor_distr (a b c : N) :
  N.land (N.lxor a b) c = N.lxor (N.land a c) (N.land b c).
Proof.
  apply N.bits_inj. intros n.
  rewrite N.land_spec, !N.lxor_spec, !N.land_spec.
  now destruct (N.testbit a n), (N.testbit b n), (N.testbit c n).
Qed.

Lemma to_N_xor (a b : byte) :
  Byte.to_N (xor a b) = N.lxor (Byte.to_N a) (Byte.to_N b).
Proof.
  unfold xor. rewrite to_N_of_N_land, land_lxor_distr.
  now rewrite !land_255_to_N.
Qed.

Lemma xor_cancel (a b : byte) : xor (xor a b) b = a.
Proof.
  apply to_N_inj. rewrite !to_N_xor, N.lxor_assoc, N.lxor_nilpotent.
  apply N.lxor_0_r.
Qed.

Lemma xor_list_length (a b : list byte) :
  length (xor_list a b) = Nat.min (length a) (length b).
Proof.
  revert b. induction a as [|x a IH]; intros [|y b]; simpl; auto.
Qed.

Lemma xor_list_cancel (a b : list byte) :
  (length a <= length b)%nat -> xor_list (xor_list a b) b = a.
Proof.
  revert b. induction a as [|x a IH]; intros [|y b]; simpl; intros H;
    try reflexivity; try lia.
  rewrite xor_cancel, IH by lia. reflexivity.
Qed.

Lemma be_of_N_length (n : nat) (x : N) : length (be_of_N n x) = n.
Proof. induction n; simpl; auto. Qed.

Lemma zeros_length (n : nat) : length (zeros n) = n.
Proof. apply repeat_length. Qed.

(** Two values under one pad. *)
Lemma xor_same_pad (a b k : byte) : xor (xor a k) (xor b k) = xor a b.
Proof.
  apply to_N_inj. rewrite !to_N_xor.
  rewrite (N.lxor_comm (Byte.to_N b)), N.lxor_assoc,
    <- (N.lxor_assoc (Byte.to_N k)), N.lxor_nilpotent, N.lxor_0_l.
  reflexivity.
Qed.

Lemma xor_list_same_pad (a b ks : list byte) :
  length a = length b -> (length a <= length ks)%nat ->
  xor_list (xor_list a ks) (xor_list b ks) = xor_list a b.
Proof.
  revert b ks. induction a as [|x a IH]; intros [|y b] [|k ks]; simpl;
    intros H1 H2; try reflexivity; try lia.
  rewrite xor_same_pad, IH by lia. reflexivity.
Qed.

End BytesFacts.

(** ** The counter mode of GCM *)

Module GCMFacts.
Import Bytes BytesFacts GCM.

Lemma keystream_length rks (n : nat) (cb : N) :
  length (keystream rks n cb) = (16 * n)%nat.
Proof.
  revert cb. induction n as [|n IH]; intros cb; cbn [keystream]; [reflexivity|].
  rewrite length_app, be_of_N_length, IH. lia.
Qed.

Lemma blocks_cover (n : nat) : (n <= 16 * ((n + 15) / 16))%nat.
Proof.
  pose proof (Nat.div_mod_eq (n + 15) 16).
  pose proof (Nat.mod_upper_bound (n + 15) 16). lia.
Qed.

Lemma gctr_length rks icb (x : list byte) : length (gctr rks icb x) = length x.
Proof.
  unfold gctr. rewrite xor_list_length, keystream_length.
  pose proof (blocks_cover (length x)). lia.
Qed.

(** Counter mode is its own inverse. *)
Lemma gctr_involutive rks icb (x : list byte) :
  gctr rks icb (gctr rks icb x) = x.
Proof.
  unfold gctr at 1. rewrite gctr_length. unfold gctr.
  apply xor_list_cancel. rewrite keystream_length. apply blocks_cover.
Qed.

Lemma crypt_length rks iv (x : list byte) : length (crypt rks iv x) = length x.
Proof. apply gctr_length. Qed.

Lemma crypt_involutive rks iv (x : list byte) :
  crypt rks iv (crypt rks iv x) = x.
Proof. apply gctr_involutive. Qed.

Lemma tag_length rks iv aad c : length (tag rks iv aad c) = 16%nat.
Proof. apply be_of_N_length. Qed.

(** Two buffers of one length sealed under one key and one nonce. *)
Lemma crypt_same_nonce rks iv (x y : list byte) :
  length x = length y ->
  xor_list (crypt rks iv x) (crypt rks iv y) = xor_list x y.
Proof.
  intros H. unfold crypt, gctr. rewrite <- H.
  apply xor_list_same_pad; [exact H|].
  rewrite keystream_length. apply blocks_cover.
Qed.

Lemma crypt_nil rks iv : crypt rks iv [] = [].
Proof. apply length_zero_iff_nil. now rewrite crypt_length. Qed.

End GCMFacts.

(** ** The key derivation *)

Module PBKDF2Facts.
Import Bytes BytesFacts SHA256 PBKDF2.

Lemma digest_bytes_length (s : hash_state) : length (digest_bytes s) = 32%nat.
Proof.
  destruct s as [a b c d e f g h]. unfold digest_bytes.
  cbn [state_words flat_map]. rewrite !length_app, !be_of_N_length.
  reflexivity.
Qed.

Lemma sha256_length (msg : list byte) : length (sha256 msg) = 32%nat.
Proof. apply digest_bytes_length. Qed.

Lemma hmac_sha256_length (key msg : list byte) :
  length (hmac_sha256 key msg) = 32%nat.
Proof. apply sha256_length. Qed.

Lemma F_length (P S : list byte) (c i : N) : length (F P S c i) = 32%nat.
Proof.
  unfold F.
  set (u1 := hmac_sha256 P (S ++ be_of_N 4 i)).
  assert (H : forall n : N,
             length (snd (N.iter n (F_step P) (u1, u1))) = 32%nat).
  { intros n. apply N.iter_invariant.
    - intros [u t] Ht. unfold F_step. cbn [fst snd] in *.
      rewrite xor_list_length, Ht, hmac_sha256_length. reflexivity.
    - apply hmac_sha256_length. }
  apply H.
Qed.

Lemma pbkdf2_32_length (P S : list byte) (c : N) :
  length (pbkdf2 P S c 32) = 32%nat.
Proof.
  unfold pbkdf2. change ((32 + hLen - 1) / hLen)%nat with 1%nat.
  cbn [seq flat_map]. rewrite app_nil_r, firstn_all2; rewrite F_length; auto.
Qed.

Lemma pbkdf2_32_block (P S : list byte) (c : N) : pbkdf2 P S c 32 = F P S c 1.
Proof.
  unfold pbkdf2. change ((32 + hLen - 1) / hLen)%nat with 1%nat.
  cbn [seq flat_map]. rewrite app_nil_r. apply firstn_all2.
  rewrite F_length. lia.
Qed.

(** *** Words and their four bytes *)

Lemma mask32_wf (x : word) : wf32 (mask32 x).
Proof.
  unfold wf32, mask32. rewrite land_spec'.
  change (Uint63.to_Z 4294967295) with (Z.ones 32).
  rewrite Z.land_ones by lia. apply Z.mod_pos_bound. lia.
Qed.

Lemma add32_wf (x y : word) : wf32 (add32 x y).
Proof. apply mask32_wf. Qed.

Lemma compress_words_wf (s : hash_state) (w16 : list word) :
  wf_state (compress_words s w16).
Proof.
  unfold compress_words. cbv zeta.
  destruct (rounds K _ s) as [a b c d e f g h].
  destruct s as [a0 b0 c0 d0 e0 f0 g0 h0].
  unfold wf_state. cbn [state_words].
  repeat (constructor; [apply add32_wf|]). constructor.
Qed.

Lemma word_of_N_of_word (w : word) : word_of_N (N_of_word w) = w.
Proof.
  unfold word_of_N, N_of_word. rewrite Z2N.id by apply to_Z_bounded.
  apply of_to_Z.
Qed.

Lemma N_of_word_lt (w : word) : wf32 w -> N_of_word w < 2 ^ 32.
Proof.
  unfold wf32, N_of_word. intros H. pose proof (to_Z_bounded w). lia.
Qed.

Lemma testbit_to_N_of_N (y n : N) :
  N.testbit (Byte.to_N (of_N y)) n = (n <? 8) && N.testbit y n.
Proof.
  rewrite to_N_of_N_land. change 255 with (N.ones 8). rewrite N.land_ones.
  destruct (N.ltb_spec n 8).
  - now rewrite N.mod_pow2_bits_low.
  - now rewrite N.mod_pow2_bits_high.
Qed.

(** Pushing one more byte at the low end of a number. *)
Lemma testbit_push (acc y n : N) :
  N.testbit (N.lor (N.shiftl acc 8) (Byte.to_N (of_N y))) n =
  if n <? 8 then N.testbit y n else N.testbit acc (n - 8).
Proof.
  rewrite N.lor_spec, testbit_to_N_of_N.
  destruct (N.ltb_spec n 8).
  - now rewrite N.shiftl_spec_low.
  - rewrite N.shiftl_spec_high' by assumption. apply orb_false_r.
Qed.

Lemma be_to_N_of_N_4 (x : N) : be_to_N (be_of_N 4 x) = x mod 2 ^ 32.
Proof.
  apply N.bits_inj. intros n. unfold be_to_N. cbn [be_of_N fold_left].
  rewrite !testbit_push. change (N.shiftl 0 8) with 0.
  rewrite !N.shiftr_spec'.
  destruct (N.ltb_spec n 32) as [Hn|Hn].
  - rewrite N.mod_pow2_bits_low by assumption.
    destruct (N.ltb_spec n 8); [f_equal; lia|].
    destruct (N.ltb_spec (n - 8) 8); [f_equal; lia|].
    destruct (N.ltb_spec (n - 8 - 8) 8); [f_equal; lia|].
    destruct (N.ltb_spec (n - 8 - 8 - 8) 8); [f_equal; lia|]. lia.
  - rewrite N.mod_pow2_bits_high by assumption.
    destruct (N.ltb_spec n 8); [lia|].
    destruct (N.ltb_spec (n - 8) 8); [lia|].
    destruct (N.ltb_spec (n - 8 - 8) 8); [lia|].
    destruct (N.ltb_spec (n - 8 - 8 - 8) 8); [lia|]. apply N.bits_0.
Qed.

Lemma word_of_bytes (w : word) :
  wf32 w -> word_of_N (be_to_N (be_of_N 4 (N_of_word w))) = w.
Proof.
  intros H. rewrite be_to_N_of_N_4, N.mod_small by now apply N_of_word_lt.
  apply word_of_N_of_word.
Qed.

(** *** Blocks *)

Lemma chunks_fuel_enough {A} (n : nat) (l : list A) (f f' : nat) :
  (0 < n)%nat -> (length l <= f)%nat -> (length l <= f')%nat ->
  chunks_fuel f n l = chunks_fuel f' n l.
Proof.
  intros Hn. revert l f'. induction f as [|f IH]; intros l f' Hf Hf'.
  - destruct l; [|simpl in Hf; lia]. now destruct f'.
  - destruct f' as [|f'].
    + destruct l; [reflexivity|simpl in Hf'; lia].
    + cbn [chunks_fuel]. destruct l as [|x l]; [reflexivity|].
      f_equal. apply IH; rewrite length_skipn; cbn [length] in Hf, Hf' |- *; lia.
Qed.

Lemma chunks_cons {A} (n : nat) (l1 l2 : list A) :
  (0 < n)%nat -> length l1 = n -> chunks n (l1 ++ l2) = l1 :: chunks n l2.
Proof.
  intros Hn Hl. unfold chunks. rewrite length_app, Hl.
  destruct n as [|n]; [lia|]. cbn [Nat.add chunks_fuel].
  destruct l1 as [|x l1]; [discriminate|]. cbn [app].
  change (x :: l1 ++ l2) with ((x :: l1) ++ l2).
  rewrite firstn_app, skipn_app, Hl, Nat.sub_diag, firstn_O, skipn_O.
  rewrite firstn_all2, skipn_all2, app_nil_r by lia. cbn [app]. f_equal.
  apply chunks_fuel_enough; lia.
Qed.

Lemma chunks_nil {A} (n : nat) : chunks n (@nil A) = [].
Proof. reflexivity. Qed.

Lemma tail_bytes_words : words_of_block tail_bytes = tail_words.
Proof. vm_compute. reflexivity. Qed.

Lemma words_of_block_app (l1 l2 : list byte) :
  length l1 = 4%nat ->
  words_of_block (l1 ++ l2) = word_of_N (be_to_N l1) :: words_of_block l2.
Proof.
  intros H. unfold words_of_block. now rewrite chunks_cons by (auto; lia).
Qed.

Lemma words_of_digest (s : hash_state) (rest : list byte) :
  wf_state s ->
  words_of_block (digest_bytes s ++ rest) = state_words s ++ words_of_block rest.
Proof.
  destruct s as [a b c d e f g h]. unfold wf_state, digest_bytes.
  cbn [state_words flat_map]. intros H.
  repeat match goal with
         | H : Forall _ (_ :: _) |- _ => inversion H; subst; clear H
         end.
  rewrite app_nil_r, <- !app_assoc.
  rewrite !words_of_block_app by apply be_of_N_length.
  rewrite !word_of_bytes by assumption. reflexivity.
Qed.

Lemma pad_96 (k64 m : list byte) :
  length k64 = 64%nat -> length m = 32%nat ->
  pad (k64 ++ m) = k64 ++ (m ++ tail_bytes).
Proof.
  intros Hk Hm. unfold pad. rewrite length_app, Hk, Hm.
  rewrite <- app_assoc. reflexivity.
Qed.

(** The hash of a 64-byte pad followed by a 32-byte value takes two
    compressions, the first of which depends on the pad only. *)
Lemma sha256_96 (k64 m : list byte) :
  length k64 = 64%nat -> length m = 32%nat ->
  sha256 (k64 ++ m) =
  digest_bytes (compress (compress init_state k64) (m ++ tail_bytes)).
Proof.
  intros Hk Hm. unfold sha256. rewrite pad_96 by assumption.
  rewrite chunks_cons by (auto; lia).
  replace (m ++ tail_bytes) with ((m ++ tail_bytes) ++ []) at 1
    by apply app_nil_r.
  rewrite chunks_cons, chunks_nil; [reflexivity|lia|].
  rewrite length_app, Hm. reflexivity.
Qed.

Lemma sha256_pad_digest (k64 : list byte) (u : hash_state) :
  length k64 = 64%nat -> wf_state u ->
  sha256 (k64 ++ digest_bytes u) =
  digest_bytes
    (compress_words (compress init_state k64) (state_words u ++ tail_words)).
Proof.
  intros Hk Hu. rewrite sha256_96 by (auto using digest_bytes_length).
  unfold compress at 1. now rewrite words_of_digest, tail_bytes_words.
Qed.

(** *** HMAC on a 32-byte value *)

Lemma hmac_key_length (key : list byte) : length (hmac_key key) = 64%nat.
Proof.
  unfold hmac_key, block_size.
  destruct (Nat.ltb_spec 64 (length key)) as [H|H];
    rewrite length_app, zeros_length, ?sha256_length; lia.
Qed.

Lemma hmac_outer (P msg : list byte) (inner : hash_state) :
  wf_state inner ->
  sha256 (map (xor x36) (hmac_key P) ++ msg) = digest_bytes inner ->
  hmac_sha256 P msg =
  digest_bytes (compress_words (ostate P) (state_words inner ++ tail_words)).
Proof.
  intros Hw Hi. unfold hmac_sha256. cbv zeta. rewrite Hi.
  apply sha256_pad_digest; [|assumption].
  now rewrite length_map, hmac_key_length.
Qed.

Lemma hmac_digest (P : list byte) (u : hash_state) :
  wf_state u ->
  hmac_sha256 P (digest_bytes u) =
  digest_bytes (hmac_words (istate P) (ostate P) u).
Proof.
  intros Hu. unfold hmac_words. cbv zeta.
  apply hmac_outer; [apply compress_words_wf|].
  apply sha256_pad_digest; [|assumption].
  now rewrite length_map, hmac_key_length.
Qed.

(** *** The running xor *)

Lemma xor_of_N (p q : N) : xor (of_N p) (of_N q) = of_N (N.lxor p q).
Proof.
  apply to_N_inj. rewrite to_N_xor, !to_N_of_N_land.
  symmetry. apply land_lxor_distr.
Qed.

Lemma N_of_word_lxor (a b : word) :
  N_of_word (Uint63.lxor a b) = N.lxor (N_of_word a) (N_of_word b).
Proof.
  unfold N_of_word. apply N2Z.inj.
  pose proof (to_Z_bounded a). pose proof (to_Z_bounded b).
  pose proof (to_Z_bounded (Uint63.lxor a b)).
  rewrite N2Z.inj_lxor, !Z2N.id by lia. apply lxor_spec'.
Qed.

Lemma be_of_N_lxor (len : nat) (x y : N) :
  be_of_N len (N.lxor x y) = xor_list (be_of_N len x) (be_of_N len y).
Proof.
  induction len as [|len IH]; [reflexivity|].
  cbn [be_of_N xor_list]. now rewrite IH, N.shiftr_lxor, xor_of_N.
Qed.

Lemma xor_list_app (a b c d : list byte) :
  length a = length c ->
  xor_list (a ++ b) (c ++ d) = xor_list a c ++ xor_list b d.
Proof.
  revert c. induction a as [|x a IH]; intros [|y c] H; try discriminate.
  - reflexivity.
  - cbn [app xor_list]. f_equal. apply IH. now injection H.
Qed.

Lemma xor_digest (t u : hash_state) :
  xor_list (digest_bytes t) (digest_bytes u) = digest_bytes (xor_state t u).
Proof.
  destruct t as [a b c d e f g h], u as [a' b' c' d' e' f' g' h'].
  unfold digest_bytes. cbn [xor_state state_words flat_map].
  rewrite !N_of_word_lxor, !be_of_N_lxor.
  repeat (rewrite xor_list_app by now rewrite !be_of_N_length).
  reflexivity.
Qed.

(** *** The two forms of F agree *)

Lemma iter_related {A B} (R : A -> B -> Prop) (f : A -> A) (g : B -> B) :
  (forall x y, R x y -> R (f x) (g y)) ->
  forall (n : N) x y, R x y -> R (N.iter n f x) (N.iter n g y).
Proof.
  intros Hstep n. induction n as [|n IH] using N.peano_ind; intros x y H.
  - exact H.
  - rewrite !N.iter_succ. now apply Hstep, IH.
Qed.

Lemma seq_word_eq {T} (w : word) (k : T) : seq_word w k = k.
Proof. unfold seq_word. now destruct (Uint63.leb w w). Qed.

Lemma seq_state_eq {T} (s : hash_state) (k : T) : seq_state s k = k.
Proof. destruct s. unfold seq_state. now rewrite !seq_word_eq. Qed.

Lemma F_step_related (P : list byte) bs ws :
  same_pair bs ws ->
  same_pair (F_step P bs) (F_words_step (istate P) (ostate P) ws).
Proof.
  intros (Hu & Ht & Hw). unfold same_pair, F_step, F_words_step.
  rewrite !seq_state_eq. cbn [fst snd]. rewrite Hu, Ht, hmac_digest by assumption.
  repeat split.
  - apply xor_digest.
  - apply compress_words_wf.
Qed.

Lemma inner1_wf (P S : list byte) (i : N) : wf_state (inner1 P S i).
Proof.
  unfold inner1, sha256.
  set (msg := map (xor x36) (hmac_key P) ++ S ++ be_of_N 4 i).
  assert (H : chunks 64 (pad msg) <> []).
  { unfold pad, chunks. destruct msg; cbn [app length chunks_fuel]; discriminate. }
  destruct (exists_last H) as (rest & b & E). rewrite E. clear E H.
  rewrite fold_left_app. cbn [fold_left].
  apply compress_words_wf.
Qed.

Lemma first_u_hmac (P S : list byte) (i : N) :
  hmac_sha256 P (S ++ be_of_N 4 i) = digest_bytes (first_u P S i).
Proof.
  unfold first_u. apply hmac_outer; [apply inner1_wf|reflexivity].
Qed.

Lemma F_words_correct (P S : list byte) (c i : N) :
  F_words P S c i = F P S c i.
Proof.
  unfold F_words, F. cbv zeta. rewrite first_u_hmac.
  destruct (iter_related same_pair (F_step P)
              (F_words_step (istate P) (ostate P)) (F_step_related P)
              (c - 1) (digest_bytes (first_u P S i), digest_bytes (first_u P S i))
              (first_u P S i, first_u P S i))
    as (_ & Ht & _).
  - unfold same_pair. cbn [fst snd].
    split; [reflexivity|split; [reflexivity|apply compress_words_wf]].
  - cbn [snd] in Ht. now rewrite Ht.
Qed.

(** *** The key block of HMAC *)




End PBKDF2Facts.

(** ** GHASH: when two tags differ *)

Module GhashFacts.
Import Bytes BytesFacts GCM GCMFacts PBKDF2Facts.

Lemma lt_pow2_bits (a n : N) :
  a < 2 ^ n <-> (forall m, n <= m -> N.testbit a m = false).
Proof.
  split.
  - intros H m Hm. rewrite <- (N.mod_small a (2 ^ n)) by assumption.
    now apply N.mod_pow2_bits_high.
  - intros H. replace a with (a mod 2 ^ n).
    + apply N.mod_lt. now apply N.pow_nonzero.
    + apply N.bits_inj. intros m. destruct (N.lt_ge_cases m n).
      * now apply N.mod_pow2_bits_low.
      * rewrite N.mod_pow2_bits_high by assumption. symmetry. now apply H.
Qed.

Lemma lxor_lt_pow2 (a b n : N) : a < 2 ^ n -> b < 2 ^ n -> N.lxor a b < 2 ^ n.
Proof.
  rewrite !lt_pow2_bits. intros Ha Hb m Hm.
  now rewrite N.lxor_spec, Ha, Hb.
Qed.


















(** Two runs of GHASH, for any product [mul] and hash key [h] such that [mul _ h] is
    additive, stays below 2^128 and sends no other block to zero. *)
Section Apart.

Variables (mul : N -> N -> N) (h : N).
Hypothesis m_lxor :
  forall x x', mul (N.lxor x x') h = N.lxor (mul x h) (mul x' h).
Hypothesis m_lt : forall x, mul x h < 2 ^ 128.
Hypothesis m_zero : forall x, x < 2 ^ 128 -> mul x h = 0 -> x = 0.



Lemma m_apart (x x' : N) :
  x < 2 ^ 128 -> x' < 2 ^ 128 -> x <> x' -> mul x h <> mul x' h.
Proof.
  intros Hx Hx' Hne E. apply Hne. apply N.lxor_eq.
  apply m_zero; [now apply lxor_lt_pow2|].
  rewrite m_lxor, E. apply N.lxor_nilpotent.
Qed.







End Apart.






End GhashFacts.

(** ** AES: a block enciphered is a 128-bit number *)

Module AESFacts.
Import Bytes BytesFacts AES GhashFacts.

















End AESFacts.

(** ** UTF-8 *)

Module Utf8Facts.
Import Bytes BytesFacts JS.

Lemma range_true (lo hi x : N) :
  lo <= x <= hi -> (lo <=? x) && (x <=? hi) = true.
Proof. intros H. apply andb_true_iff. rewrite !N.leb_le. div_lia. Qed.

Lemma range_false (lo hi x : N) :
  x < lo \/ hi < x -> (lo <=? x) && (x <=? hi) = false.
Proof. intros H. apply andb_false_iff. rewrite !N.leb_gt. div_lia. Qed.

Lemma ltb_true (a b : N) : a < b -> (a <? b) = true.
Proof. apply N.ltb_lt. Qed.

Lemma ltb_false (a b : N) : b <= a -> (a <? b) = false.
Proof. apply N.ltb_ge. Qed.

Lemma is_cont_true (b : byte) : 0x80 <= Byte.to_N b <= 0xBF -> is_cont b = true.
Proof. apply range_true. Qed.

Lemma second_ok_true (lead : N) (b : byte) :
  0x80 <= Byte.to_N b <= 0xBF ->
  (lead = 0xE0 -> 0xA0 <= Byte.to_N b) ->
  (lead = 0xED -> Byte.to_N b <= 0x9F) ->
  (lead = 0xF0 -> 0x90 <= Byte.to_N b) ->
  (lead = 0xF4 -> Byte.to_N b <= 0x8F) ->
  second_ok lead b = true.
Proof.
  intros H HE0 HED HF0 HF4. unfold second_ok, is_cont, in_range.
  destruct (N.eqb_spec lead 0xE0); [apply range_true; div_lia|].
  destruct (N.eqb_spec lead 0xED); [apply range_true; div_lia|].
  destruct (N.eqb_spec lead 0xF0); [apply range_true; div_lia|].
  destruct (N.eqb_spec lead 0xF4); apply range_true; div_lia.
Qed.

(** One step of the decoder on a well-formed sequence of each length. *)
Lemma decode_lead1 (b0 : byte) (rest : list byte) :
  Byte.to_N b0 < 0x80 ->
  utf8_decode (b0 :: rest) = Byte.to_N b0 :: utf8_decode rest.
Proof. intros H. cbn [utf8_decode]. now rewrite ltb_true. Qed.

Lemma decode_lead2 (b0 b1 : byte) (rest : list byte) :
  0xC2 <= Byte.to_N b0 <= 0xDF -> is_cont b1 = true ->
  utf8_decode (b0 :: b1 :: rest) =
  ((Byte.to_N b0 - 0xC0) * 64 + cont_bits b1) :: utf8_decode rest.
Proof.
  intros H0 H1. remember (b1 :: rest) as r1 eqn:E1. cbn [utf8_decode].
  rewrite ltb_false, range_true by div_lia. subst r1. now rewrite H1.
Qed.

Lemma decode_lead3 (b0 b1 b2 : byte) (rest : list byte) :
  0xE0 <= Byte.to_N b0 <= 0xEF ->
  second_ok (Byte.to_N b0) b1 = true -> is_cont b2 = true ->
  utf8_decode (b0 :: b1 :: b2 :: rest) =
  ((Byte.to_N b0 - 0xE0) * 4096 + cont_bits b1 * 64 + cont_bits b2)
  :: utf8_decode rest.
Proof.
  intros H0 H1 H2. remember (b1 :: b2 :: rest) as r1 eqn:E1.
  cbn [utf8_decode].
  rewrite ltb_false, range_false, range_true by div_lia.
  subst r1. now rewrite H1, H2.
Qed.

Lemma decode_lead4 (b0 b1 b2 b3 : byte) (rest : list byte) :
  0xF0 <= Byte.to_N b0 <= 0xF4 ->
  second_ok (Byte.to_N b0) b1 = true -> is_cont b2 = true ->
  is_cont b3 = true ->
  utf8_decode (b0 :: b1 :: b2 :: b3 :: rest) =
  utf16_of_code_point
    ((Byte.to_N b0 - 0xF0) * 262144 + cont_bits b1 * 4096
     + cont_bits b2 * 64 + cont_bits b3)
  ++ utf8_decode rest.
Proof.
  intros H0 H1 H2 H3. remember (b1 :: b2 :: b3 :: rest) as r1 eqn:E1.
  cbn [utf8_decode].
  rewrite ltb_false, range_false, range_false, range_true by div_lia.
  subst r1. now rewrite H1, H2, H3.
Qed.

Lemma decode_1 (cp : N) (rest : list byte) :
  cp < 0x80 ->
  utf8_decode (utf8_of_code_point cp ++ rest) = cp :: utf8_decode rest.
Proof.
  intros H. unfold utf8_of_code_point. rewrite ltb_true by div_lia. cbn [app].
  rewrite decode_lead1; rewrite to_N_of_N; auto; div_lia.
Qed.

Lemma decode_2 (cp : N) (rest : list byte) :
  0x80 <= cp < 0x800 ->
  utf8_decode (utf8_of_code_point cp ++ rest) = cp :: utf8_decode rest.
Proof.
  intros H. unfold utf8_of_code_point.
  rewrite ltb_false, ltb_true by div_lia. cbn [app].
  assert (H0 : 0xC0 + cp / 64 < 256) by div_lia.
  assert (H1 : 0x80 + cp mod 64 < 256) by div_lia.
  rewrite decode_lead2; unfold cont_bits; rewrite ?to_N_of_N by assumption.
  - f_equal. div_lia.
  - div_lia.
  - apply is_cont_true. rewrite to_N_of_N by assumption. div_lia.
Qed.

Lemma decode_3 (cp : N) (rest : list byte) :
  0x800 <= cp < 0x10000 -> ~ (0xD800 <= cp < 0xE000) ->
  utf8_decode (utf8_of_code_point cp ++ rest) = cp :: utf8_decode rest.
Proof.
  intros H Hs. unfold utf8_of_code_point.
  rewrite ltb_false, ltb_false, ltb_true by div_lia. cbn [app].
  assert (H0 : 0xE0 + cp / 4096 < 256) by div_lia.
  assert (H1 : 0x80 + (cp / 64) mod 64 < 256) by div_lia.
  assert (H2 : 0x80 + cp mod 64 < 256) by div_lia.
  rewrite decode_lead3; unfold cont_bits; rewrite ?to_N_of_N by assumption.
  - f_equal. div_lia.
  - div_lia.
  - apply second_ok_true; rewrite to_N_of_N by assumption; div_lia.
  - apply is_cont_true. rewrite to_N_of_N by assumption. div_lia.
Qed.

Lemma decode_4 (cp : N) (rest : list byte) :
  0x10000 <= cp < 0x110000 ->
  utf8_decode (utf8_of_code_point cp ++ rest) =
  utf16_of_code_point cp ++ utf8_decode rest.
Proof.
  intros H. unfold utf8_of_code_point.
  rewrite ltb_false, ltb_false, ltb_false by div_lia. cbn [app].
  assert (H0 : 0xF0 + cp / 262144 < 256) by div_lia.
  assert (H1 : 0x80 + (cp / 4096) mod 64 < 256) by div_lia.
  assert (H2 : 0x80 + (cp / 64) mod 64 < 256) by div_lia.
  assert (H3 : 0x80 + cp mod 64 < 256) by div_lia.
  rewrite decode_lead4; unfold cont_bits; rewrite ?to_N_of_N by assumption.
  - do 2 f_equal. div_lia.
  - div_lia.
  - apply second_ok_true; rewrite to_N_of_N by assumption; div_lia.
  - apply is_cont_true. rewrite to_N_of_N by assumption. div_lia.
  - apply is_cont_true. rewrite to_N_of_N by assumption. div_lia.
Qed.

Lemma decode_code_point (cp : N) (rest : list byte) :
  scalar cp ->
  utf8_decode (utf8_of_code_point cp ++ rest) =
  utf16_of_code_point cp ++ utf8_decode rest.
Proof.
  intros Hs. destruct (N.lt_ge_cases cp 0x10000) as [Hlt|Hge].
  - replace (utf16_of_code_point cp) with [cp]
      by (unfold utf16_of_code_point; now rewrite ltb_true).
    destruct (N.lt_ge_cases cp 0x80); [now apply decode_1|].
    destruct (N.lt_ge_cases cp 0x800); [apply decode_2; div_lia|].
    apply decode_3; unfold scalar in Hs; div_lia.
  - apply decode_4. unfold scalar in Hs. div_lia.
Qed.

Lemma pair_induction {A} (P : list A -> Prop) :
  P [] -> (forall a, P [a]) ->
  (forall a b l, P l -> P (b :: l) -> P (a :: b :: l)) ->
  forall l, P l.
Proof.
  intros H0 H1 H2 l.
  enough (H : P l /\ forall a, P (a :: l)) by apply H.
  induction l as [|b l [IH1 IH2]]; split; auto.
Qed.

Lemma surrogate_tests (c : N) :
  (is_high_surrogate c = true <-> 0xD800 <= c <= 0xDBFF) /\
  (is_low_surrogate c = true <-> 0xDC00 <= c <= 0xDFFF).
Proof.
  unfold is_high_surrogate, is_low_surrogate.
  rewrite !andb_true_iff, !N.leb_le. tauto.
Qed.

Lemma utf16_of_pair (c d : N) :
  is_high_surrogate c = true -> is_low_surrogate d = true ->
  scalar (code_point_of_pair c d) /\
  utf16_of_code_point (code_point_of_pair c d) = [c; d].
Proof.
  intros Hc Hd. apply surrogate_tests in Hc. apply surrogate_tests in Hd.
  unfold scalar, code_point_of_pair, utf16_of_code_point. split; [div_lia|].
  rewrite ltb_false by div_lia. f_equal; [|f_equal]; div_lia.
Qed.

Lemma utf16_of_unit (c : N) :
  is_high_surrogate c = false -> is_low_surrogate c = false -> c < 0x10000 ->
  scalar c /\ utf16_of_code_point c = [c].
Proof.
  intros Hh Hl Hc. unfold scalar, utf16_of_code_point. split.
  - destruct (N.lt_ge_cases c 0xD800); [now left|]. right.
    destruct (N.lt_ge_cases c 0xE000); [|div_lia]. exfalso.
    destruct (N.le_gt_cases c 0xDBFF).
    + assert (is_high_surrogate c = true) by (apply surrogate_tests; div_lia).
      congruence.
    + assert (is_low_surrogate c = true) by (apply surrogate_tests; div_lia).
      congruence.
  - now rewrite ltb_true.
Qed.

(** Decoding inverts encoding on well-formed strings. *)
Lemma utf8_roundtrip (s : js_string) :
  well_formed s = true -> utf8_decode (utf8_encode s) = s.
Proof.
  induction s as [|a|a b l IHl IHbl] using pair_induction.
  - reflexivity.
  - cbn [well_formed utf8_encode].
    destruct (is_high_surrogate a) eqn:Hh; [discriminate|].
    destruct (is_low_surrogate a) eqn:Hl; [discriminate|].
    cbn [negb andb]. rewrite andb_true_r. intros Hc. apply N.ltb_lt in Hc.
    destruct (utf16_of_unit a Hh Hl Hc) as [Hs Hu].
    rewrite decode_code_point, Hu by assumption. reflexivity.
  - destruct (is_high_surrogate a) eqn:Hh.
    + cbn [well_formed utf8_encode]. rewrite Hh.
      intros H. apply andb_true_iff in H. destruct H as [Hb Hw].
      rewrite Hb. destruct (utf16_of_pair a b Hh Hb) as [Hs Hu].
      rewrite decode_code_point, Hu, IHl by assumption. reflexivity.
    + remember (b :: l) as rest eqn:E. cbn [well_formed utf8_encode].
      rewrite Hh. destruct (is_low_surrogate a) eqn:Hl; [discriminate|].
      cbn [negb andb]. intros H. apply andb_true_iff in H.
      destruct H as [Hc Hw]. apply N.ltb_lt in Hc.
      destruct (utf16_of_unit a Hh Hl Hc) as [Hs Hu].
      rewrite decode_code_point, Hu, IHbl by assumption. reflexivity.
Qed.

Lemma utf8_of_code_point_nonempty (cp : N) :
  (1 <= length (utf8_of_code_point cp))%nat.
Proof.
  unfold utf8_of_code_point.
  destruct (cp <? 0x80), (cp <? 0x800), (cp <? 0x10000); simpl; div_lia.
Qed.

(** The encoding is empty only for the empty string. *)
Lemma utf8_encode_nil (s : js_string) : utf8_encode s = [] <-> s = [].
Proof.
  split; [|now intros ->].
  destruct s as [|c rest]; [reflexivity|]. intros H. exfalso.
  apply (f_equal (@length byte)) in H. cbn [utf8_encode] in H.
  assert (Hn := utf8_of_code_point_nonempty).
  destruct (is_high_surrogate c).
  - destruct rest as [|d rest'].
    + specialize (Hn REPLACEMENT). rewrite H in Hn. simpl in Hn. div_lia.
    + destruct (is_low_surrogate d); rewrite length_app in H;
        [specialize (Hn (code_point_of_pair c d))|specialize (Hn REPLACEMENT)];
        simpl in H; div_lia.
  - destruct (is_low_surrogate c); rewrite length_app in H;
      [specialize (Hn REPLACEMENT)|specialize (Hn c)]; simpl in H; div_lia.
Qed.

(** *** Strings that are not well formed *)

Lemma replacement_scalar :
  scalar REPLACEMENT /\ utf16_of_code_point REPLACEMENT = [REPLACEMENT].
Proof. split; [unfold scalar, REPLACEMENT; lia|reflexivity]. Qed.

Lemma decode_replacement (rest : list byte) :
  utf8_decode (utf8_of_code_point REPLACEMENT ++ rest) = REPLACEMENT :: utf8_decode rest.
Proof. now rewrite decode_code_point by apply replacement_scalar. Qed.

Lemma code_units_inv c s : Spec.code_units (c :: s) -> c < 0x10000 /\ Spec.code_units s.
Proof. intros H. inversion H; subst. now split. Qed.

Lemma utf8_encode_cons (a b : code_unit) (l : js_string) :
  utf8_encode (a :: b :: l) =
  if is_high_surrogate a then
    if is_low_surrogate b
    then utf8_of_code_point (code_point_of_pair a b) ++ utf8_encode l
    else utf8_of_code_point REPLACEMENT ++ utf8_encode (b :: l)
  else if is_low_surrogate a
  then utf8_of_code_point REPLACEMENT ++ utf8_encode (b :: l)
  else utf8_of_code_point a ++ utf8_encode (b :: l).
Proof. reflexivity. Qed.

Lemma toWellFormed_cons (a b : code_unit) (l : js_string) :
  Spec.toWellFormed (a :: b :: l) =
  if is_high_surrogate a then
    if is_low_surrogate b then a :: b :: Spec.toWellFormed l
    else REPLACEMENT :: Spec.toWellFormed (b :: l)
  else if is_low_surrogate a then REPLACEMENT :: Spec.toWellFormed (b :: l)
  else a :: Spec.toWellFormed (b :: l).
Proof. reflexivity. Qed.

Lemma well_formed_cons (a b : code_unit) (l : js_string) :
  well_formed (a :: b :: l) =
  if is_high_surrogate a then is_low_surrogate b && well_formed l
  else negb (is_low_surrogate a) && (a <? 0x10000) && well_formed (b :: l).
Proof. reflexivity. Qed.

(** Encoding to UTF-8 and decoding again is [toWellFormed]. *)
Lemma utf8_to_well_formed (s : js_string) :
  Spec.code_units s -> utf8_decode (utf8_encode s) = Spec.toWellFormed s.
Proof.
  induction s as [|a|a b l IHl IHbl] using pair_induction; intros Hs.
  - reflexivity.
  - apply code_units_inv in Hs. destruct Hs as [Hc _].
    cbn [utf8_encode Spec.toWellFormed].
    destruct (is_high_surrogate a) eqn:Hh; [reflexivity|].
    destruct (is_low_surrogate a) eqn:Hl; [reflexivity|].
    destruct (utf16_of_unit a Hh Hl Hc) as [Hsc Hu].
    rewrite decode_code_point, Hu by assumption. reflexivity.
  - destruct (code_units_inv _ _ Hs) as [Hc Hbl].
    destruct (code_units_inv _ _ Hbl) as [_ Hl'].
    rewrite utf8_encode_cons, toWellFormed_cons.
    destruct (is_high_surrogate a) eqn:Hh; [destruct (is_low_surrogate b) eqn:Hb|
      destruct (is_low_surrogate a) eqn:Hl].
    + destruct (utf16_of_pair a b Hh Hb) as [Hsc Hu].
      rewrite decode_code_point, Hu, IHl by assumption. reflexivity.
    + rewrite decode_replacement, IHbl by assumption. reflexivity.
    + rewrite decode_replacement, IHbl by assumption. reflexivity.
    + destruct (utf16_of_unit a Hh Hl Hc) as [Hsc Hu].
      rewrite decode_code_point, Hu, IHbl by assumption. reflexivity.
Qed.

(** [toWellFormed] leaves exactly the well-formed strings as they are. *)
Lemma to_well_formed_fixed (s : js_string) :
  Spec.code_units s -> (Spec.toWellFormed s = s <-> well_formed s = true).
Proof.
  induction s as [|a|a b l IHl IHbl] using pair_induction; intros Hs.
  - split; reflexivity.
  - apply code_units_inv in Hs. destruct Hs as [Hc _]. apply N.ltb_lt in Hc.
    cbn [well_formed Spec.toWellFormed].
    destruct (is_high_surrogate a) eqn:Hh.
    + split; [|discriminate]. intros E. injection E as E. subst a. discriminate Hh.
    + destruct (is_low_surrogate a) eqn:Hl.
      * split; [|discriminate]. intros E. injection E as E. subst a. discriminate Hl.
      * rewrite Hc. split; reflexivity.
  - destruct (code_units_inv _ _ Hs) as [Hc Hbl].
    destruct (code_units_inv _ _ Hbl) as [_ Hl'].
    apply N.ltb_lt in Hc.
    rewrite well_formed_cons, toWellFormed_cons.
    destruct (is_high_surrogate a) eqn:Hh; [destruct (is_low_surrogate b) eqn:Hb|
      destruct (is_low_surrogate a) eqn:Hl].
    + cbn [andb]. rewrite <- (IHl Hl'). split; [|now intros ->].
      intros E. now injection E.
    + cbn [andb]. split; [|discriminate]. intros E. injection E as E _.
      subst a. discriminate Hh.
    + cbn [negb andb]. split; [|discriminate]. intros E. injection E as E _.
      subst a. discriminate Hl.
    + rewrite Hc. cbn [negb andb]. rewrite <- (IHbl Hbl).
      split; [|now intros ->]. intros E. now injection E.
Qed.

Lemma strict_equal_iff (a b : js_string) : strict_equal a b = true <-> a = b.
Proof.
  revert b. induction a as [|c a IH]; intros [|d b]; cbn [strict_equal];
    try (split; [discriminate|discriminate]); [split; reflexivity|].
  rewrite andb_true_iff, N.eqb_eq, IH. split.
  - now intros [-> ->].
  - intros E. injection E as -> ->. now split.
Qed.

(** The verdict of [===] against the decoded text. *)
Lemma strict_equal_to_well_formed (s : js_string) :
  Spec.code_units s -> strict_equal s (Spec.toWellFormed s) = well_formed s.
Proof.
  intros Hs. apply eq_true_iff_eq. rewrite strict_equal_iff.
  rewrite <- (to_well_formed_fixed s Hs). split; congruence.
Qed.

End Utf8Facts.

(** ** base64 *)

Module Base64Facts.
Import Bytes BytesFacts JS.

Lemma enc_table :
  forallb (fun i => match unbase64 (enc (N.of_nat i) mod 256) with
                    | Some w => w =? N.of_nat i
                    | None => false
                    end) (seq 0 64) = true.
Proof. reflexivity. Qed.

(** Every character the encoder writes is read back as its sextet. *)
Lemma unbase64_enc (v : N) : v < 64 -> unbase64 (enc v mod 256) = Some v.
Proof.
  intros H. pose proof enc_table as T. rewrite forallb_forall in T.
  specialize (T (N.to_nat v)). rewrite N2Nat.id in T.
  destruct (unbase64 (enc v mod 256)) as [w|].
  - f_equal. apply N.eqb_eq, T, in_seq. div_lia.
  - discriminate T. apply in_seq. div_lia.
Qed.

Lemma sextets_enc (v : N) (rest : js_string) :
  v < 64 -> sextets (enc v :: rest) = v :: sextets rest.
Proof. intros H. cbn [sextets]. now rewrite unbase64_enc. Qed.

Lemma sextets_pad (rest : js_string) : sextets (PAD :: rest) = [].
Proof. reflexivity. Qed.

Lemma triple_induction {A} (P : list A -> Prop) :
  P [] -> (forall a, P [a]) -> (forall a b, P [a; b]) ->
  (forall a b c l, P l -> P (a :: b :: c :: l)) ->
  forall l, P l.
Proof.
  intros H0 H1 H2 H3 l.
  enough (H : P l /\ (forall a, P (a :: l)) /\ forall a b, P (a :: b :: l))
    by apply H.
  induction l as [|c l (IH0 & IH1 & IH2)]; repeat split; auto.
Qed.

(** The three bytes of a group, from its four sextets. *)
Lemma group_bytes (a b c : N) :
  a < 256 -> b < 256 -> c < 256 ->
  a / 4 * 4 + (a mod 4 * 16 + b / 16) / 16 = a /\
  (a mod 4 * 16 + b / 16) mod 16 * 16 + (b mod 16 * 4 + c / 64) / 4 = b /\
  (b mod 16 * 4 + c / 64) mod 4 * 64 + c mod 64 = c.
Proof. intros Ha Hb Hc. repeat split; div_lia. Qed.

Lemma group_sextets (a b c : N) :
  a < 256 -> b < 256 -> c < 256 ->
  a / 4 < 64 /\ a mod 4 * 16 + b / 16 < 64 /\ b mod 16 * 4 + c / 64 < 64 /\
  c mod 64 < 64.
Proof. intros Ha Hb Hc. repeat split; div_lia. Qed.

(** [Buffer.from(buf.toString('base64'), 'base64')] is [buf]. *)
Lemma base64_roundtrip (bs : list byte) : base64_decode (base64_encode bs) = bs.
Proof.
  unfold base64_decode.
  induction bs as [|a|a b|a b c l IH] using triple_induction.
  - reflexivity.
  - cbn [base64_encode].
    destruct (group_sextets _ _ _ (to_N_lt a) (to_N_lt x00) (to_N_lt x00))
      as (S0 & S1 & _).
    destruct (group_bytes _ _ _ (to_N_lt a) (to_N_lt x00) (to_N_lt x00))
      as (B0 & _).
    change (Byte.to_N x00) with 0 in *. change (0 / 16) with 0 in *.
    rewrite N.add_0_r in *.
    rewrite !sextets_enc, sextets_pad by assumption.
    cbn [bytes_of_sextets]. now rewrite B0, of_N_to_N.
  - cbn [base64_encode].
    destruct (group_sextets _ _ _ (to_N_lt a) (to_N_lt b) (to_N_lt x00))
      as (S0 & S1 & S2 & _).
    destruct (group_bytes _ _ _ (to_N_lt a) (to_N_lt b) (to_N_lt x00))
      as (B0 & B1 & _).
    change (Byte.to_N x00) with 0 in *. change (0 / 64) with 0 in *.
    rewrite N.add_0_r in *.
    rewrite !sextets_enc, sextets_pad by assumption.
    cbn [bytes_of_sextets]. now rewrite B0, B1, !of_N_to_N.
  - cbn [base64_encode].
    destruct (group_sextets _ _ _ (to_N_lt a) (to_N_lt b) (to_N_lt c))
      as (S0 & S1 & S2 & S3).
    destruct (group_bytes _ _ _ (to_N_lt a) (to_N_lt b) (to_N_lt c))
      as (B0 & B1 & B2).
    rewrite !sextets_enc by assumption.
    cbn [bytes_of_sextets]. now rewrite B0, B1, B2, !of_N_to_N, IH.
Qed.

Lemma base64_encode_inj (x y : list byte) :
  base64_encode x = base64_encode y -> x = y.
Proof.
  intros H. rewrite <- (base64_roundtrip x), <- (base64_roundtrip y).
  now rewrite H.
Qed.

(** Text made of whole 3-byte groups can be continued by concatenation. *)
Lemma base64_encode_app (k : nat) (x y : list byte) :
  length x = (3 * k)%nat ->
  base64_encode (x ++ y) = base64_encode x ++ base64_encode y.
Proof.
  revert x. induction k as [|k IH]; intros x H.
  - destruct x; [reflexivity|discriminate].
  - destruct x as [|a [|b [|c x]]]; try (simpl in H; div_lia).
    cbn [app base64_encode]. rewrite IH by (simpl in H; div_lia). reflexivity.
Qed.

(** What [update] and [final] hand out, put together and decoded. *)
Lemma base64_split_roundtrip (out : list byte) :
  base64_decode (base64_encode (firstn (length out / 3 * 3) out)
                 ++ base64_encode (skipn (length out / 3 * 3) out)) = out.
Proof.
  rewrite <- (base64_encode_app (length out / 3)).
  - now rewrite firstn_skipn, base64_roundtrip.
  - rewrite length_firstn.
    pose proof (Nat.div_mod_eq (length out) 3). div_lia.
Qed.

(** *** The text of the encoder, the leniency of the decoder *)

Lemma alphabet_table :
  forallb (fun i => Spec.in_alphabet (enc (N.of_nat i))) (seq 0 64) = true.
Proof. reflexivity. Qed.

Lemma in_alphabet_enc (v : N) : v < 64 -> Spec.in_alphabet (enc v) = true.
Proof.
  intros H. pose proof alphabet_table as T. rewrite forallb_forall in T.
  specialize (T (N.to_nat v)). rewrite N2Nat.id in T. apply T, in_seq. div_lia.
Qed.

(** The encoder writes valid base64 in the sense of RFC 4648. *)
Lemma base64_encode_valid (bs : list byte) :
  Spec.valid_base64 (base64_encode bs) = true.
Proof.
  induction bs as [|a|a b|a b c l IH] using triple_induction.
  - reflexivity.
  - cbn [base64_encode Spec.valid_base64].
    destruct (group_sextets _ _ _ (to_N_lt a) (to_N_lt x00) (to_N_lt x00))
      as (S0 & S1 & _).
    change (Byte.to_N x00) with 0 in *. change (0 / 16) with 0 in *.
    rewrite N.add_0_r in *.
    rewrite !in_alphabet_enc by assumption. rewrite N.eqb_refl.
    cbn [andb]. apply orb_true_r.
  - cbn [base64_encode Spec.valid_base64].
    destruct (group_sextets _ _ _ (to_N_lt a) (to_N_lt b) (to_N_lt x00))
      as (S0 & S1 & S2 & _).
    change (Byte.to_N x00) with 0 in *. change (0 / 64) with 0 in *.
    rewrite N.add_0_r in *.
    rewrite !in_alphabet_enc by assumption. rewrite N.eqb_refl.
    cbn [andb]. now rewrite orb_true_r.
  - remember (base64_encode l) as t eqn:Et.
    cbn [base64_encode]. rewrite <- Et.
    destruct (group_sextets _ _ _ (to_N_lt a) (to_N_lt b) (to_N_lt c))
      as (S0 & S1 & S2 & S3).
    cbn [Spec.valid_base64].
    rewrite !in_alphabet_enc by assumption. cbn [andb orb].
    destruct t; [reflexivity|exact IH].
Qed.

(** Four characters for every three bytes begun. *)
Lemma base64_encode_length (bs : list byte) :
  length (base64_encode bs) = (4 * ((length bs + 2) / 3))%nat.
Proof.
  induction bs as [|a|a b|a b c l IH] using triple_induction; try reflexivity.
  cbn [base64_encode length]. rewrite IH.
  replace (S (S (S (length l))) + 2)%nat with ((length l + 2) + 1 * 3)%nat by lia.
  rewrite Nat.div_add by lia. lia.
Qed.

(** What the decoder skips, and where it stops. *)
Lemma sextets_skip (pre : js_string) (c : code_unit) (post : js_string) :
  unbase64 (c mod 256) = None -> c mod 256 <> PAD ->
  sextets (pre ++ c :: post) = sextets (pre ++ post).
Proof.
  intros Hn Hp. induction pre as [|d pre IH].
  - cbn [app sextets]. rewrite Hn.
    now destruct (N.eqb_spec (c mod 256) PAD).
  - cbn [app sextets]. rewrite IH. reflexivity.
Qed.

Lemma sextets_stop (s rest : js_string) :
  sextets (s ++ PAD :: rest) = sextets s.
Proof.
  induction s as [|d s IH]; [reflexivity|].
  cbn [app sextets]. rewrite IH. reflexivity.
Qed.

End Base64Facts.

(** ** The module's functions *)

Module EncryptionFacts.
Import Bytes BytesFacts GCMFacts PBKDF2Facts Utf8Facts Base64Facts.
Import GhashFacts AESFacts.
Import JS Node Encryption.
Import Process.

Lemma randomBytes_length (rng : nat -> byte) (n : nat) :
  length (randomBytes rng n) = n.
Proof. unfold randomBytes. now rewrite length_map, length_seq. Qed.

Lemma deriveKey_length (password : js_string) :
  length (deriveKey password) = 32%nat.
Proof. apply pbkdf2_32_length. Qed.

(** The value [||] yields is a non-empty string if its right side is. *)
Lemma or_else_nonempty (a : option js_string) (b : js_string) :
  b <> [] -> or_else a b <> [].
Proof. destruct a as [[|c s]|]; simpl; auto; discriminate. Qed.

Lemma or_else_idem (s : js_string) (b : js_string) :
  s <> [] -> or_else (Some s) b = s.
Proof. destruct s; [congruence|reflexivity]. Qed.

Lemma resolveKey_nonempty env k : resolveKey env k <> [].
Proof. unfold resolveKey. apply or_else_nonempty, or_else_nonempty. discriminate. Qed.

Lemma resolveKey_resolved env env' k :
  resolveKey env' (Some (resolveKey env k)) = resolveKey env k.
Proof. apply or_else_idem, resolveKey_nonempty. Qed.

Lemma encryptPassword_envelope env rng p k :
  encryptPassword env rng p k =
  envelope_encode (sealed_iv rng) (sealed_tag (resolveKey env k) rng p)
    (sealed_text (resolveKey env k) rng p).
Proof.
  unfold encryptPassword, update_base64, final_base64. cbv zeta.
  cbn [round_keys gcm_iv gcm_aad createCipheriv].
  rewrite (base64_split_roundtrip
             (GCM.crypt (AES.key_schedule (deriveKey (resolveKey env k)))
                (randomBytes rng 16) (utf8_encode p))).
  reflexivity.
Qed.

Lemma sealed_text_length key rng p :
  length (sealed_text key rng p) = length (utf8_encode p).
Proof. unfold sealed_text. apply crypt_length. Qed.

Lemma sealed_tag_length key rng p : length (sealed_tag key rng p) = 16%nat.
Proof. unfold sealed_tag. apply tag_length. Qed.

Lemma subarray_parts (iv authTag encrypted : list byte) :
  length iv = 16%nat -> length authTag = 16%nat ->
  subarray (iv ++ authTag ++ encrypted) 0 16 = iv /\
  subarray (iv ++ authTag ++ encrypted) 16 32 = authTag /\
  subarray_from (iv ++ authTag ++ encrypted) 32 = encrypted.
Proof.
  intros Hi Ht. unfold subarray, subarray_from. repeat split.
  - change (16 - 0)%nat with 16%nat. rewrite skipn_O.
    rewrite firstn_app, Hi, Nat.sub_diag, firstn_O, app_nil_r.
    apply firstn_all2. lia.
  - change (32 - 16)%nat with 16%nat.
    rewrite skipn_app, Hi, Nat.sub_diag, skipn_O, skipn_all2 by lia.
    rewrite app_nil_l, firstn_app, Ht, Nat.sub_diag, firstn_O, app_nil_r.
    apply firstn_all2. lia.
  - rewrite app_assoc, skipn_app, length_app, Hi, Ht.
    rewrite skipn_all2 by (rewrite length_app; lia). reflexivity.
Qed.

Lemma envelope_decode_encode (iv authTag encrypted : list byte) :
  length iv = 16%nat -> length authTag = 16%nat ->
  envelope_decode (envelope_encode iv authTag encrypted) =
  (iv, authTag, encrypted).
Proof.
  intros Hi Ht. unfold envelope_decode, envelope_encode.
  rewrite base64_roundtrip.
  destruct (subarray_parts iv authTag encrypted Hi Ht) as (-> & -> & ->).
  reflexivity.
Qed.

(** The parts of an envelope of at least 32 bytes. *)
Lemma envelope_decode_lengths (s : js_string) iv authTag encrypted :
  (32 <= length (base64_decode s))%nat ->
  envelope_decode s = (iv, authTag, encrypted) ->
  length iv = 16%nat /\ length authTag = 16%nat.
Proof.
  unfold envelope_decode. intros H E.
  pose proof (f_equal (fun t => fst (fst t)) E) as E1.
  pose proof (f_equal (fun t => snd (fst t)) E) as E2.
  cbn [fst snd] in E1, E2. subst iv authTag. unfold subarray.
  rewrite !length_firstn, !length_skipn. lia.
Qed.

Lemma tag_matches_iff c authTag encrypted :
  tag_matches c authTag encrypted = true <->
  firstn (length authTag) (getAuthTag c encrypted) = authTag.
Proof.
  unfold tag_matches.
  destruct (list_eq_dec _ _ authTag); split; congruence.
Qed.

(** Deciphering what [decryptPassword] is given, once the parts of the
    envelope are known. *)
Lemma decryptPassword_parts env s k iv authTag encrypted :
  envelope_decode s = (iv, authTag, encrypted) ->
  decryptPassword env s k =
  bind (createDecipheriv (deriveKey (resolveKey env k)) iv AAD) (fun decipher =>
  bind (setAuthTag authTag) (fun authTag =>
  update_final_utf8 decipher authTag encrypted)).
Proof. intros E. unfold decryptPassword. cbv zeta. now rewrite E. Qed.

(** Opening with key [key'] what was sealed with key [key]... *)
Lemma open_sealed env rng p k env' k' :
  resolveKey env' k' = resolveKey env k ->
  decryptPassword env' (encryptPassword env rng p k) k' =
  Ok (utf8_decode (utf8_encode p)).
Proof.
  intros Hk. rewrite encryptPassword_envelope.
  rewrite (decryptPassword_parts _ _ _ _ _ _
             (envelope_decode_encode _ _ _ (randomBytes_length rng 16)
                (sealed_tag_length _ _ _))).
  rewrite Hk. unfold createDecipheriv, sealed_iv.
  change (randomBytes rng 16) with (rng 0%nat :: randomBytes (fun i => rng (S i)) 15) at 1.
  cbn [bind]. unfold setAuthTag. rewrite sealed_tag_length. cbn [valid_tag_length existsb Nat.eqb orb bind].
  unfold update_final_utf8.
  replace (tag_matches _ _ _) with true.
  - cbn [round_keys gcm_iv]. unfold sealed_text, sealed_iv.
    now rewrite crypt_involutive.
  - symmetry. apply tag_matches_iff. rewrite sealed_tag_length.
    unfold getAuthTag. cbn [round_keys gcm_iv gcm_aad].
    apply firstn_all2. fold (sealed_iv rng).
    change (GCM.tag _ _ _ _) with (sealed_tag (resolveKey env k) rng p).
    rewrite sealed_tag_length. lia.
Qed.

Lemma decrypt_encrypt env rng p k :
  decryptPassword env (encryptPassword env rng p k) k =
  Ok (utf8_decode (utf8_encode p)).
Proof. now apply open_sealed. Qed.

(** *** Further facts *)

Lemma decryptPassword_resolved env env' (s : js_string) k k' :
  resolveKey env k = resolveKey env' k' ->
  decryptPassword env s k = decryptPassword env' s k'.
Proof. intros H. unfold decryptPassword. now rewrite H. Qed.

Lemma sealed_text_nil key rng : sealed_text key rng [] = [].
Proof. unfold sealed_text. apply crypt_nil. Qed.

Lemma valid_tag_length_le (n : nat) : valid_tag_length n = true -> (4 <= n <= 16)%nat.
Proof.
  unfold valid_tag_length. intros H. apply existsb_exists in H.
  destruct H as (x & Hx & E). apply Nat.eqb_eq in E. subst x.
  cbn [In] in Hx. lia.
Qed.

(** The parts read from an envelope cut inside its tag. *)
Lemma envelope_decode_cut (iv t : list byte) (n : nat) :
  length iv = 16%nat -> length t = 16%nat -> (n <= 16)%nat ->
  envelope_decode (base64_encode (firstn (16 + n) (iv ++ t))) = (iv, firstn n t, []).
Proof.
  intros Hi Ht Hn. unfold envelope_decode. rewrite base64_roundtrip.
  rewrite firstn_app, Hi, firstn_all2 by lia.
  replace (16 + n - 16)%nat with n by lia.
  unfold subarray, subarray_from. rewrite skipn_O.
  change (16 - 0)%nat with 16%nat. change (32 - 16)%nat with 16%nat.
  rewrite firstn_app, Hi, Nat.sub_diag, firstn_O, app_nil_r.
  rewrite (firstn_all2 (n := 16) iv) by lia.
  rewrite !skipn_app, Hi, Nat.sub_diag, skipn_O.
  rewrite (skipn_all2 (n := 16) iv) by lia. cbn [app].
  rewrite (firstn_all2 (n := 16)) by (rewrite length_firstn; lia).
  rewrite skipn_all2 by lia. cbn [app].
  rewrite skipn_all2 by (rewrite length_firstn; lia). reflexivity.
Qed.

(** [decryptPassword] sees its text through the base64 decoder only. *)
Lemma decryptPassword_decoded env (s s' : js_string) k :
  base64_decode s = base64_decode s' ->
  decryptPassword env s k = decryptPassword env s' k.
Proof. intros H. unfold decryptPassword, envelope_decode. now rewrite H. Qed.

Lemma encryptPassword_decoded env rng p k :
  base64_decode (encryptPassword env rng p k) =
  sealed_iv rng ++ sealed_tag (resolveKey env k) rng p
  ++ sealed_text (resolveKey env k) rng p.
Proof. rewrite encryptPassword_envelope. apply base64_roundtrip. Qed.

(** The run of [generateEncryptedPassword]: its check never throws. *)
Lemma generateEncryptedPassword_run env rng p :
  generateEncryptedPassword env rng p =
  ([(Stdout, lit "Original: " ++ p);
    (Stdout, lit "Encrypted: " ++ encryptPassword env rng p None);
    (Stdout, lit "Decrypted: " ++ utf8_decode (utf8_encode p));
    (Stdout, lit "Verification: "
             ++ (if strict_equal p (utf8_decode (utf8_encode p))
                 then SUCCESS else FAILED))],
   Returned (encryptPassword env rng p None)).
Proof.
  unfold generateEncryptedPassword. rewrite decrypt_encrypt. reflexivity.
Qed.



(** *** An envelope that was altered *)




Lemma createDecipheriv_ok (key iv aad : list byte) :
  length iv = 16%nat ->
  createDecipheriv key iv aad = Ok (Gcm (AES.key_schedule key) iv aad).
Proof. destruct iv; [discriminate|reflexivity]. Qed.


(** What [decryptPassword] does once the parts are a 16-byte nonce and a
    16-byte tag. *)
Lemma decryptPassword_full env (s : js_string) k (iv authTag encrypted : list byte) :
  envelope_decode s = (iv, authTag, encrypted) ->
  length iv = 16%nat -> length authTag = 16%nat ->
  decryptPassword env s k =
  update_final_utf8 (Gcm (AES.key_schedule (deriveKey (resolveKey env k))) iv AAD)
    authTag encrypted.
Proof.
  intros E Hi Ht. rewrite (decryptPassword_parts env s k iv authTag encrypted E).
  rewrite (createDecipheriv_ok _ iv AAD Hi). cbn [bind].
  unfold setAuthTag. rewrite Ht. reflexivity.
Qed.









End EncryptionFacts.

(** ** The script *)

Module ScriptFacts.
Import JS Node Process Encryption Script EncryptionFacts.

(** What the script writes for an argument that is not empty. *)
Lemma encrypt_password_run usage env rng argv (password : js_string) :
  nth_error argv 2 = Some password -> password <> [] ->
  encrypt_password usage env rng argv =
  ([(Stdout, text "🔐 Password Encryption Utility");
    (Stdout, lit "================================");
    (Stdout, lit "Original: " ++ password);
    (Stdout, lit "Encrypted: " ++ encryptPassword env rng password None);
    (Stdout, lit "Decrypted: " ++ utf8_decode (utf8_encode password));
    (Stdout, lit "Verification: "
             ++ (if strict_equal password (utf8_decode (utf8_encode password))
                 then SUCCESS else FAILED));
    (Stdout, newline
             ++ text "📝 Copy this encrypted password to your constants.ts file:");
    (Stdout, lit "encryptedPassword: '" ++ encryptPassword env rng password None
             ++ lit "'");
    (Stdout, newline ++ text "⚠️  Security Notes:");
    (Stdout, lit "- Store your encryption key in environment variable PLAYWRIGHT_ENCRYPTION_KEY");
    (Stdout, lit "- Never commit plain text passwords to version control");
    (Stdout, lit "- Use different encryption keys for different environments")],
   Returned tt).
Proof.
  intros H Hp. unfold encrypt_password. rewrite H.
  destruct password as [|c s]; [congruence|].
  rewrite generateEncryptedPassword_run. reflexivity.
Qed.

End ScriptFacts.

(** ** The names of test data *)

Module HelpersFacts.
Import Bytes BytesFacts JS Helpers.

Lemma lit_inj (s t : string) : lit s = lit t -> s = t.
Proof.
  unfold lit. intros H.
  rewrite <- (string_of_list_byte_of_string s), <- (string_of_list_byte_of_string t).
  f_equal. revert H. generalize (list_byte_of_string s) (list_byte_of_string t).
  induction l as [|a l IH]; intros [|b l']; cbn [map]; intros H;
    try discriminate; [reflexivity|].
  injection H as Hab Hl. f_equal; [now apply to_N_inj|now apply IH].
Qed.

Lemma to_uint_nonnil (n : N) : N.to_uint n <> Decimal.Nil.
Proof.
  intros H. pose proof (DecimalN.Unsigned.of_to n) as E. rewrite H in E.
  cbn in E. subst n. discriminate H.
Qed.

(** The decimal text of a number determines it. *)
Lemma number_to_string_inj (m n : N) :
  number_to_string m = number_to_string n -> m = n.
Proof.
  unfold number_to_string. intros H. apply lit_inj in H.
  apply DecimalN.Unsigned.to_uint_inj.
  pose proof (NilZero.usu _ (to_uint_nonnil m)) as Hm.
  pose proof (NilZero.usu _ (to_uint_nonnil n)) as Hn.
  rewrite H in Hm. congruence.
Qed.

End HelpersFacts.

(** ** Evaluation on concrete inputs *)

Module Evaluation.
Import Bytes JS Node Encryption Constants.

(** Known answers of the primitives. *)
Example sha256_abc :
  SHA256.sha256 (bytes_of_string "abc") =
  [xba; x78; x16; xbf; x8f; x01; xcf; xea; x41; x41; x40; xde; x5d; xae;
   x22; x23; xb0; x03; x61; xa3; x96; x17; x7a; x9c; xb4; x10; xff; x61;
   xf2; x00; x15; xad].
Proof. vm_compute. reflexivity. Qed.

Example aes256_fips197 :
  AES.encrypt_block
    (AES.key_schedule (map of_N (map N.of_nat (seq 0 32))))
    0x00112233445566778899aabbccddeeff
  = 0x8ea2b7ca516745bfeafc49904b496089.
Proof. vm_compute. reflexivity. Qed.

Example gcm_zero_key_block :
  let rks := AES.key_schedule (zeros 32) in
  let c := GCM.crypt rks (zeros 12) (zeros 16) in
  be_to_N c = 0xcea7403d4d606b6e074ec5d3baf39d18 /\
  be_to_N (GCM.tag rks (zeros 12) [] c) = 0xd0d1c8a799996bf0265b98b5d48ab919.
Proof. vm_compute. split; reflexivity. Qed.

Example pbkdf2_rfc7914 :
  PBKDF2.pbkdf2 (bytes_of_string "passwd") (bytes_of_string "salt") 1 64 =
  [x55; xac; x04; x6e; x56; xe3; x08; x9f; xec; x16; x91; xc2; x25; x44;
   xb6; x05; xf9; x41; x85; x21; x6d; xde; x04; x65; xe6; x8b; x9d; x57;
   xc2; x0d; xac; xbc; x49; xca; x9c; xcc; xf1; x79; xb6; x45; x99; x16;
   x64; xb3; x9d; x77; xef; x31; x7c; x71; xb8; x45; xb1; xe3; x0b; xd5;
   x09; x11; x20; x41; xd3; xa1; x97; x83].
Proof. vm_compute. reflexivity. Qed.

(** The codecs of [Buffer]. *)
Example utf8_mixed_text :
  utf8_encode Samples.mixed_text =
  [x68; xc3; xa9; xe2; x82; xac; xf0; x9f; x98; x80].
Proof. reflexivity. Qed.

Example base64_hunter2 :
  base64_encode (utf8_encode (lit "hunter2")) = lit "aHVudGVyMg==".
Proof. reflexivity. Qed.

Example base64_lenient :
  base64_decode (lit "aHVu dGVy!Mg==ignored") = utf8_encode (lit "hunter2").
Proof. reflexivity. Qed.

(** The derived key, through the form of PBKDF2 arranged for evaluation. *)
Lemma deriveKey_words (password : js_string) :
  deriveKey password =
  PBKDF2.F_words (utf8_encode password) (utf8_encode (lit "playwright-salt"))
    10000 1.
Proof.
  unfold deriveKey, pbkdf2Sync. cbv zeta.
  rewrite PBKDF2Facts.pbkdf2_32_block. symmetry.
  apply PBKDF2Facts.F_words_correct.
Qed.

(** The keys derived from the built-in default and from another passphrase. *)
Lemma deriveKey_DEFAULT_KEY :
  deriveKey DEFAULT_KEY =
  [x4a; x26; x5c; x8c; x6d; x4a; xcc; xef; x1c; x3f; xde; x5b; x78; x96;
   x9e; x5e; x04; x68; xfe; xa9; x5d; x7f; x7d; x08; x27; x3e; x94; xbc;
   x2b; x86; x81; x93].
Proof. rewrite deriveKey_words. vm_compute. reflexivity. Qed.

Lemma deriveKey_other_key :
  deriveKey (lit "other-key") =
  [xe1; x58; x78; x0c; xae; x73; x17; xf8; x9f; x26; x96; x82; x3c; xf7;
   xe2; x14; x4b; x40; x98; xf6; x34; x36; xcf; x6f; xd5; x58; x5e; xae;
   x65; x89; x21; x66].
Proof. rewrite deriveKey_words. vm_compute. reflexivity. Qed.

(** Runs [decryptPassword] where the key resolves to a passphrase whose
    derived key is known. *)
Ltac run_decrypt key_eq :=
  unfold decryptPassword; cbv zeta;
  match goal with
  | |- context [deriveKey ?k] =>
    let k' := eval vm_compute in k in
    let d := eval vm_compute in DEFAULT_KEY in
    let o := eval vm_compute in (lit "other-key") in
    first [ unify k' d; change (deriveKey k) with (deriveKey DEFAULT_KEY)
          | unify k' o; change (deriveKey k) with (deriveKey (lit "other-key")) ]
  end;
  rewrite key_eq; vm_compute.

(** The credential stored in utils/constants.ts opens under the default
    key to the operator's password, and under no other key. *)
Example stored_password :
  decryptPassword no_env encryptedPassword None = Ok (lit "hXadmin@2018").
Proof. run_decrypt deriveKey_DEFAULT_KEY. reflexivity. Qed.

Example stored_password_other_env :
  decryptPassword (setenv PLAYWRIGHT_ENCRYPTION_KEY (lit "other-key") no_env)
    encryptedPassword None = Throw UnableToAuthenticate.
Proof. run_decrypt deriveKey_other_key. reflexivity. Qed.

(** It is the envelope [encryptPassword] makes of that password under
    the default key and the nonce it carries. *)
Example stored_password_sealed :
  encryptPassword no_env
    (fun i => nth i (subarray (base64_decode encryptedPassword) 0 16) x00)
    (lit "hXadmin@2018") None = encryptedPassword.
Proof.
  rewrite EncryptionFacts.encryptPassword_envelope.
  unfold sealed_tag, sealed_text.
  change (resolveKey no_env None) with DEFAULT_KEY.
  rewrite deriveKey_DEFAULT_KEY. vm_compute. reflexivity.
Qed.

Lemma getPassword_unfold env :
  getPassword env = decryptPassword env encryptedPassword None.
Proof. reflexivity. Qed.

Example getPassword_default : getPassword no_env = Ok (lit "hXadmin@2018").
Proof. rewrite getPassword_unfold. exact stored_password. Qed.

(** [Samples.tampered] is the stored envelope with one bit of its first
    ciphertext byte flipped. *)
Example tampered_one_byte :
  let stored := base64_decode encryptedPassword in
  base64_decode Samples.tampered =
  firstn 32 stored ++ [xor x01 (nth 32 stored x00)] ++ skipn 33 stored.
Proof. reflexivity. Qed.


Example with_junk_accepted :
  decryptPassword no_env Samples.with_junk None = Ok (lit "hXadmin@2018").
Proof. run_decrypt deriveKey_DEFAULT_KEY. reflexivity. Qed.

Example twenty_bytes_rejected :
  decryptPassword no_env Samples.twenty_bytes None = Throw UnableToAuthenticate.
Proof. run_decrypt deriveKey_DEFAULT_KEY. reflexivity. Qed.



End Evaluation.

(* ================================================================== *)
(** * Part III: the claims of the specification *)
(* ================================================================== *)

Import Bytes JS Node Encryption Constants Samples.
Import BytesFacts GCMFacts PBKDF2Facts Utf8Facts Base64Facts EncryptionFacts.

(** C1 (as amended).  For every plaintext that is a well-formed UTF-16
    string (the empty string and text with multi-byte characters
    included) and every key, deciphering with the same key and the same
    environment what [encryptPassword] produced returns the plaintext. *)
Theorem round_trip_well_formed env rng p k :
  well_formed p = true ->
  decryptPassword env (encryptPassword env rng p k) k = Ok p.
Proof.
  intros Hp. rewrite decrypt_encrypt. now rewrite utf8_roundtrip.
Qed.

Lemma round_trip_well_formed_witness :
  well_formed mixed_text = true /\
  decryptPassword no_env
    (encryptPassword no_env (constant_rng x2a) mixed_text (Some (lit "test-key")))
    (Some (lit "test-key")) = Ok mixed_text.
Proof.
  split; [reflexivity|].
  exact (round_trip_well_formed no_env (constant_rng x2a) mixed_text
           (Some (lit "test-key")) eq_refl).
Defined.

(** C1, the claim as stated fails: a plaintext holding an unpaired
    surrogate comes back as U+FFFD. *)
Lemma round_trip_lone_surrogate :
  decryptPassword no_env
    (encryptPassword no_env (constant_rng x2a) lone_surrogate (Some (lit "test-key")))
    (Some (lit "test-key")) = Ok [REPLACEMENT] /\
  decryptPassword no_env
    (encryptPassword no_env (constant_rng x2a) lone_surrogate (Some (lit "test-key")))
    (Some (lit "test-key")) <> Ok lone_surrogate.
Proof.
  rewrite decrypt_encrypt. split; [reflexivity|]. intros H. discriminate H.
Qed.




(** C3 (as amended).  [decryptPassword] checks neither the base64 text
    nor the decoded length.  When fewer than 32 bytes are decoded and the
    bytes left for the tag are not 4, 8 or 12 to 16 (so whenever fewer
    than 20 bytes are decoded), it fails in [createDecipheriv] (no byte at
    all) or in [setAuthTag], with an error other than the one of a
    failed tag check. *)
Theorem short_envelope_throws env s k :
  (length (base64_decode s) < 32)%nat ->
  valid_tag_length (length (base64_decode s) - 16) = false ->
  decryptPassword env s k =
    Throw (if (length (base64_decode s) =? 0)%nat then InvalidIV
           else InvalidAuthTagLength (length (base64_decode s) - 16)) /\
  decryptPassword env s k <> Throw UnableToAuthenticate.
Proof.
  intros Hlen Hbad.
  assert (E : decryptPassword env s k =
              Throw (if (length (base64_decode s) =? 0)%nat then InvalidIV
                     else InvalidAuthTagLength (length (base64_decode s) - 16))).
  { rewrite (decryptPassword_parts env s k _ _ _ eq_refl).
    unfold createDecipheriv, subarray. rewrite skipn_O.
    destruct (base64_decode s) as [|b bs] eqn:Eb; [reflexivity|].
    change (16 - 0)%nat with 16%nat. cbn [firstn bind Nat.eqb length].
    unfold setAuthTag.
    assert (Ht : length (firstn (32 - 16) (skipn 16 (b :: bs)))
                 = (length (b :: bs) - 16)%nat).
    { rewrite length_firstn, length_skipn. lia. }
    rewrite Ht. cbn [length]. cbn [length] in Hbad. now rewrite Hbad. }
  split; [exact E|]. rewrite E.
  destruct (length (base64_decode s) =? 0)%nat; discriminate.
Qed.

Lemma short_envelope_throws_witness :
  (length (base64_decode (lit "AAAA")) < 32)%nat /\
  valid_tag_length (length (base64_decode (lit "AAAA")) - 16) = false /\
  decryptPassword no_env (lit "AAAA") None = Throw (InvalidAuthTagLength 0).
Proof.
  split; [apply Nat.ltb_lt; vm_compute; reflexivity|].
  split; [vm_compute; reflexivity|].
  apply (short_envelope_throws no_env (lit "AAAA") None).
  - apply Nat.ltb_lt. vm_compute. reflexivity.
  - vm_compute. reflexivity.
Defined.

(** C3, the claim as stated fails: text that is not valid base64 is
    accepted and deciphered, and valid base64 of 20 bytes fails with the
    very error of a failed tag check. *)
Lemma malformed_input_not_told_apart :
  (Spec.valid_base64 with_junk = false /\
   decryptPassword no_env with_junk None = Ok (lit "hXadmin@2018")) /\
  (Spec.valid_base64 twenty_bytes = true /\
   length (base64_decode twenty_bytes) = 20%nat /\
   decryptPassword no_env twenty_bytes None = Throw UnableToAuthenticate).
Proof.
  split; [split|split; [|split]].
  - vm_compute. reflexivity.
  - apply Evaluation.with_junk_accepted.
  - vm_compute. reflexivity.
  - vm_compute. reflexivity.
  - apply Evaluation.twenty_bytes_rejected.
Qed.

(** C4 (as amended).  In both functions the key is the explicit argument
    if it is a non-empty string; otherwise the value of
    PLAYWRIGHT_ENCRYPTION_KEY if that is a non-empty string; otherwise the
    built-in default.  Each function behaves as if it were given the
    resolved key explicitly, whatever the environment then holds. *)
Theorem key_precedence env explicit :
  resolveKey env explicit =
    match explicit with
    | Some (c :: key) => c :: key
    | _ =>
      match env PLAYWRIGHT_ENCRYPTION_KEY with
      | Some (c :: key) => c :: key
      | _ => DEFAULT_KEY
      end
    end /\
  (forall env' rng p,
     encryptPassword env rng p explicit =
     encryptPassword env' rng p (Some (resolveKey env explicit))) /\
  (forall env' s,
     decryptPassword env s explicit =
     decryptPassword env' s (Some (resolveKey env explicit))).
Proof.
  split; [reflexivity|]. split; intros env'.
  - intros rng p. unfold encryptPassword. now rewrite resolveKey_resolved.
  - intros s. unfold decryptPassword. now rewrite resolveKey_resolved.
Qed.

(** C4, the claim as stated fails: an explicit key that is the empty
    string is provided, yet the environment's key is used. *)
Lemma empty_explicit_key_yields_env_key :
  resolveKey (setenv PLAYWRIGHT_ENCRYPTION_KEY (lit "env-key") no_env) (Some [])
  = lit "env-key" /\
  lit "env-key" <> [].
Proof. split; [reflexivity|discriminate]. Qed.

(** C5.  What [encryptPassword] returns is the base64 text of the nonce
    (the 16 random bytes), then the 16-byte tag, then the ciphertext, in
    this order.  [decryptPassword] takes bytes 0 to 15 of the decoded
    input as the nonce, bytes 16 to 31 as the tag and the bytes from 32
    on as the ciphertext.  So for every triple of a 16-byte nonce, a
    16-byte tag and a ciphertext, reading back the text of the triple
    gives its three parts, and [decryptPassword] works on exactly these. *)
Theorem envelope_format env rng p k (s : js_string)
  (iv authTag encrypted : list byte) :
  length iv = 16%nat -> length authTag = 16%nat ->
  (let rks := AES.key_schedule (deriveKey (resolveKey env k)) in
   let nonce := randomBytes rng 16 in
   let ciphertext := GCM.crypt rks nonce (utf8_encode p) in
   let tag := GCM.tag rks nonce AAD ciphertext in
   encryptPassword env rng p k = base64_encode (nonce ++ tag ++ ciphertext) /\
   length nonce = 16%nat /\ length tag = 16%nat) /\
  (let combined := base64_decode s in
   decryptPassword env s k =
   bind (createDecipheriv (deriveKey (resolveKey env k)) (subarray combined 0 16) AAD)
     (fun decipher =>
      bind (setAuthTag (subarray combined 16 32))
        (fun tag => update_final_utf8 decipher tag (subarray_from combined 32)))) /\
  (let combined := base64_decode (base64_encode (iv ++ authTag ++ encrypted)) in
   combined = iv ++ authTag ++ encrypted /\
   subarray combined 0 16 = iv /\
   subarray combined 16 32 = authTag /\
   subarray_from combined 32 = encrypted) /\
  decryptPassword env (base64_encode (iv ++ authTag ++ encrypted)) k =
  update_final_utf8 (createCipheriv (deriveKey (resolveKey env k)) iv AAD)
    authTag encrypted.
Proof.
  intros Hi Ht. cbv zeta. split; [|split; [|split]].
  - split; [|split; [apply randomBytes_length|apply tag_length]].
    rewrite encryptPassword_envelope. reflexivity.
  - exact (decryptPassword_parts env s k _ _ _ eq_refl).
  - rewrite base64_roundtrip. split; [reflexivity|].
    exact (subarray_parts iv authTag encrypted Hi Ht).
  - change (base64_encode (iv ++ authTag ++ encrypted))
      with (envelope_encode iv authTag encrypted).
    exact (decryptPassword_full env _ k iv authTag encrypted
             (envelope_decode_encode iv authTag encrypted Hi Ht) Hi Ht).
Qed.

Lemma envelope_format_witness :
  let iv := zeros 16 in
  let authTag := repeat xff 16 in
  let encrypted := [x01; x02; x03; x04; x05] in
  let combined := base64_decode (base64_encode (iv ++ authTag ++ encrypted)) in
  length iv = 16%nat /\ length authTag = 16%nat /\
  combined = iv ++ authTag ++ encrypted /\
  subarray combined 0 16 = iv /\
  subarray combined 16 32 = authTag /\
  subarray_from combined 32 = encrypted.
Proof.
  cbv zeta. split; [reflexivity|]. split; [reflexivity|].
  exact (proj1 (proj2 (proj2
           (envelope_format no_env (constant_rng x2a) mixed_text None
              Constants.encryptedPassword
              (zeros 16) (repeat xff 16) [x01; x02; x03; x04; x05]
              eq_refl eq_refl)))).
Defined.

(** C6.  The derived key depends on the passphrase alone: it is block 1
    of PBKDF2 with HMAC-SHA-256, 10,000 iterations and the fixed salt
    "playwright-salt", it has exactly 32 bytes, and it is defined for
    every string, the empty one included. *)
Theorem deriveKey_pbkdf2 password :
  deriveKey password =
    PBKDF2.pbkdf2 (utf8_encode password) (utf8_encode (lit "playwright-salt"))
      10000 32 /\
  deriveKey password =
    PBKDF2.F (utf8_encode password) (utf8_encode (lit "playwright-salt")) 10000 1 /\
  length (deriveKey password) = 32%nat /\
  length (deriveKey []) = 32%nat.
Proof.
  split; [reflexivity|]. split; [|split; apply deriveKey_length].
  unfold deriveKey, pbkdf2Sync. apply pbkdf2_32_block.
Qed.

(** C7.  The envelope of a plaintext decodes to 32 + L bytes, L the
    length of the plaintext in UTF-8: a 16-byte nonce, a 16-byte tag and
    L bytes of ciphertext, which is empty exactly for the empty
    plaintext. *)
Theorem envelope_lengths env rng p k :
  let combined := base64_decode (encryptPassword env rng p k) in
  let parts := envelope_decode (encryptPassword env rng p k) in
  length combined = (32 + length (utf8_encode p))%nat /\
  length (fst (fst parts)) = 16%nat /\
  length (snd (fst parts)) = 16%nat /\
  length (snd parts) = length (utf8_encode p) /\
  (32 <= length combined)%nat /\
  (snd parts = [] <-> p = []).
Proof.
  cbv zeta. rewrite encryptPassword_envelope.
  rewrite (envelope_decode_encode _ _ _ (randomBytes_length rng 16)
             (sealed_tag_length _ _ _)).
  unfold envelope_encode. rewrite base64_roundtrip. cbn [fst snd].
  rewrite !length_app, sealed_tag_length, sealed_text_length.
  unfold sealed_iv. rewrite randomBytes_length.
  repeat split; try lia.
  - intros H. apply utf8_encode_nil. apply length_zero_iff_nil.
    rewrite <- sealed_text_length with (key := resolveKey env k) (rng := rng).
    now rewrite H.
  - intros ->. apply length_zero_iff_nil. now rewrite sealed_text_length.
Qed.

(** Envelopes sealed under different nonces differ. *)
Lemma envelopes_differ env rng1 rng2 p k :
  randomBytes rng1 16 <> randomBytes rng2 16 ->
  encryptPassword env rng1 p k <> encryptPassword env rng2 p k.
Proof.
  intros Hiv H. apply Hiv. rewrite !encryptPassword_envelope in H.
  apply base64_encode_inj in H.
  apply (f_equal (firstn 16)) in H.
  rewrite !firstn_app in H. unfold sealed_iv in H.
  rewrite !randomBytes_length, !Nat.sub_diag, !firstn_O, !app_nil_r in H.
  rewrite !firstn_all2 in H by (rewrite randomBytes_length; lia).
  exact H.
Qed.

(** C8 (as amended).  For every well-formed plaintext and every key, two
    encryptions under distinct nonces give two different envelopes, and
    each deciphers under the same key to the plaintext. *)
Theorem distinct_nonces_distinct_envelopes env rng1 rng2 p k :
  well_formed p = true ->
  randomBytes rng1 16 <> randomBytes rng2 16 ->
  encryptPassword env rng1 p k <> encryptPassword env rng2 p k /\
  decryptPassword env (encryptPassword env rng1 p k) k = Ok p /\
  decryptPassword env (encryptPassword env rng2 p k) k = Ok p.
Proof.
  intros Hp Hiv. split; [now apply envelopes_differ|].
  rewrite !decrypt_encrypt, utf8_roundtrip by assumption. now split.
Qed.

Lemma distinct_nonces_distinct_envelopes_witness :
  well_formed mixed_text = true /\
  randomBytes (constant_rng x00) 16 <> randomBytes (constant_rng x01) 16 /\
  encryptPassword no_env (constant_rng x00) mixed_text (Some (lit "test-key"))
  <> encryptPassword no_env (constant_rng x01) mixed_text (Some (lit "test-key")).
Proof.
  split; [reflexivity|].
  assert (Hiv : randomBytes (constant_rng x00) 16
                <> randomBytes (constant_rng x01) 16)
    by (vm_compute; discriminate).
  split; [exact Hiv|].
  exact (proj1 (distinct_nonces_distinct_envelopes no_env (constant_rng x00)
                  (constant_rng x01) mixed_text (Some (lit "test-key"))
                  eq_refl Hiv)).
Defined.

(** C8, the claim as stated fails: the two envelopes of a plaintext that
    holds an unpaired surrogate do not decipher to that plaintext. *)
Lemma distinct_nonces_lone_surrogate :
  randomBytes (constant_rng x00) 16 <> randomBytes (constant_rng x01) 16 /\
  decryptPassword no_env
    (encryptPassword no_env (constant_rng x00) lone_surrogate (Some (lit "test-key")))
    (Some (lit "test-key")) <> Ok lone_surrogate /\
  decryptPassword no_env
    (encryptPassword no_env (constant_rng x01) lone_surrogate (Some (lit "test-key")))
    (Some (lit "test-key")) <> Ok lone_surrogate.
Proof.
  split; [vm_compute; discriminate|].
  rewrite !decrypt_encrypt. split; intros H; discriminate H.
Qed.

(** C9 (as amended).  [deriveKey] is a function of its argument alone.
    [encryptPassword] and [decryptPassword] are functions of their
    arguments, of the sixteen random bytes drawn (encryption only) and of
    the value of PLAYWRIGHT_ENCRYPTION_KEY, which is read only when the
    key argument is absent or empty; nothing else of the process's state
    is read and nothing is written. *)
Theorem results_depend_on_key_variable_only env1 env2 rng1 rng2 p s k :
  env1 PLAYWRIGHT_ENCRYPTION_KEY = env2 PLAYWRIGHT_ENCRYPTION_KEY \/
  (exists c key, k = Some (c :: key)) ->
  randomBytes rng1 16 = randomBytes rng2 16 ->
  encryptPassword env1 rng1 p k = encryptPassword env2 rng2 p k /\
  decryptPassword env1 s k = decryptPassword env2 s k.
Proof.
  intros Hk Hrng.
  assert (Hr : resolveKey env1 k = resolveKey env2 k).
  { unfold resolveKey. destruct Hk as [He|(c & key & ->)].
    - now rewrite He.
    - reflexivity. }
  split.
  - rewrite !encryptPassword_envelope.
    unfold sealed_tag, sealed_text, sealed_iv. now rewrite Hr, Hrng.
  - unfold decryptPassword. now rewrite Hr.
Qed.

Lemma results_depend_on_key_variable_only_witness :
  let env1 := setenv "HOME" (lit "/root") no_env in
  env1 PLAYWRIGHT_ENCRYPTION_KEY = no_env PLAYWRIGHT_ENCRYPTION_KEY /\
  randomBytes (constant_rng x07) 16 = randomBytes (late_rng x07 x08) 16 /\
  encryptPassword env1 (constant_rng x07) mixed_text None
  = encryptPassword no_env (late_rng x07 x08) mixed_text None /\
  decryptPassword env1 encryptedPassword None
  = decryptPassword no_env encryptedPassword None.
Proof.
  cbv zeta. split; [reflexivity|]. split; [reflexivity|].
  exact (results_depend_on_key_variable_only
           (setenv "HOME" (lit "/root") no_env) no_env
           (constant_rng x07) (late_rng x07 x08) mixed_text encryptedPassword
           None (or_introl eq_refl) eq_refl).
Defined.

(** C9, the claim as stated fails: with the same explicit arguments, the
    stored credential opens in one environment and is rejected in
    another. *)
Lemma result_varies_with_environment :
  decryptPassword no_env encryptedPassword None = Ok (lit "hXadmin@2018") /\
  decryptPassword (setenv PLAYWRIGHT_ENCRYPTION_KEY (lit "other-key") no_env)
    encryptedPassword None = Throw UnableToAuthenticate /\
  decryptPassword no_env encryptedPassword None
  <> decryptPassword (setenv PLAYWRIGHT_ENCRYPTION_KEY (lit "other-key") no_env)
       encryptedPassword None.
Proof.
  pose proof Evaluation.stored_password as H1.
  pose proof Evaluation.stored_password_other_env as H2.
  split; [exact H1|]. split; [exact H2|]. rewrite H1, H2. discriminate.
Qed.

(** C10.  An explicit key that is the empty string is treated as absent:
    the key is then PLAYWRIGHT_ENCRYPTION_KEY or the default, never the
    empty string. *)
Theorem empty_key_is_absent env rng p s :
  resolveKey env (Some []) = resolveKey env None /\
  resolveKey env (Some []) = or_else (env PLAYWRIGHT_ENCRYPTION_KEY) DEFAULT_KEY /\
  resolveKey env (Some []) <> [] /\
  encryptPassword env rng p (Some []) = encryptPassword env rng p None /\
  decryptPassword env s (Some []) = decryptPassword env s None.
Proof.
  repeat split; try reflexivity. apply resolveKey_nonempty.
Qed.

(* ================================================================== *)
(** * Part IV: further properties of the code *)
(* ================================================================== *)

Import Process Script Helpers.
Import ScriptFacts HelpersFacts.

(** X1.  For every string of 16-bit code units and every key, opening
    with the same key what [encryptPassword] made never throws: it returns
    the plaintext with each unpaired surrogate replaced by U+FFFD. *)
Theorem round_trip_to_well_formed env rng p k :
  Spec.code_units p ->
  decryptPassword env (encryptPassword env rng p k) k = Ok (Spec.toWellFormed p).
Proof.
  intros Hp. rewrite decrypt_encrypt. now rewrite utf8_to_well_formed.
Qed.

Lemma round_trip_to_well_formed_witness :
  Spec.code_units [0x61; 0xDC00; 0x62] /\
  decryptPassword no_env
    (encryptPassword no_env (constant_rng x2a) [0x61; 0xDC00; 0x62] None) None
  = Ok [0x61; REPLACEMENT; 0x62].
Proof.
  assert (H : Spec.code_units [0x61; 0xDC00; 0x62])
    by (repeat constructor).
  split; [exact H|].
  exact (round_trip_to_well_formed no_env (constant_rng x2a)
           [0x61; 0xDC00; 0x62] None H).
Defined.

(** X2.  The envelope of [encryptPassword] decodes to the sixteen random
    bytes, then the 16-byte GCM tag, then the GCM ciphertext of the
    password's UTF-8 bytes, all under the key derived from the resolved
    passphrase and the associated data "playwright-test": the detour of
    the ciphertext through base64 text and back loses nothing. *)
Theorem envelope_bytes env rng p k :
  let rks := AES.key_schedule (deriveKey (resolveKey env k)) in
  let iv := randomBytes rng 16 in
  let c := GCM.crypt rks iv (utf8_encode p) in
  base64_decode (encryptPassword env rng p k) = iv ++ GCM.tag rks iv AAD c ++ c.
Proof.
  cbv zeta. rewrite encryptPassword_envelope. unfold envelope_encode.
  rewrite base64_roundtrip. reflexivity.
Qed.

(** X3.  The text [encryptPassword] returns is valid base64 of RFC 4648
    (standard alphabet, padded), 4 characters for every 3 bytes begun of
    the 32 + L bytes it carries, L the UTF-8 length of the password; so it
    has at least 44 characters. *)
Theorem envelope_text env rng p k :
  Spec.valid_base64 (encryptPassword env rng p k) = true /\
  length (encryptPassword env rng p k)
  = (4 * ((32 + length (utf8_encode p) + 2) / 3))%nat /\
  (44 <= length (encryptPassword env rng p k))%nat.
Proof.
  rewrite encryptPassword_envelope. unfold envelope_encode.
  split; [apply base64_encode_valid|].
  rewrite base64_encode_length, !length_app, sealed_tag_length, sealed_text_length.
  unfold sealed_iv. rewrite randomBytes_length.
  replace (16 + (16 + length (utf8_encode p)) + 2)%nat
    with (32 + length (utf8_encode p) + 2)%nat by lia.
  split; [reflexivity|].
  assert (11 <= (32 + length (utf8_encode p) + 2) / 3)%nat
    by (apply Nat.div_le_lower_bound; lia).
  lia.
Qed.

(** X4.  An envelope opens wherever the key resolves to the passphrase it
    was sealed with, whether that passphrase came from the argument,
    from PLAYWRIGHT_ENCRYPTION_KEY or from the default, and in whatever
    environment: for a well-formed password it returns the password. *)
Theorem envelope_opens_where_key_resolves_alike env rng p k env' k' :
  well_formed p = true ->
  resolveKey env' k' = resolveKey env k ->
  decryptPassword env' (encryptPassword env rng p k) k' = Ok p.
Proof.
  intros Hp Hk. rewrite (open_sealed env rng p k env' k' Hk).
  now rewrite utf8_roundtrip.
Qed.

Lemma envelope_opens_where_key_resolves_alike_witness :
  let env := setenv PLAYWRIGHT_ENCRYPTION_KEY (lit "ci-key") no_env in
  well_formed mixed_text = true /\
  resolveKey no_env (Some (lit "ci-key")) = resolveKey env None /\
  decryptPassword no_env (encryptPassword env (constant_rng x2a) mixed_text None)
    (Some (lit "ci-key")) = Ok mixed_text.
Proof.
  cbv zeta. split; [reflexivity|]. split; [reflexivity|].
  exact (envelope_opens_where_key_resolves_alike
           (setenv PLAYWRIGHT_ENCRYPTION_KEY (lit "ci-key") no_env)
           (constant_rng x2a) mixed_text None no_env (Some (lit "ci-key"))
           eq_refl eq_refl).
Defined.

(** X5.  [decryptPassword] skips every character of its input whose low
    byte is neither in the base64 alphabets nor [=]: such a character
    (a space, a line break, ...) put anywhere in an envelope changes
    nothing of the result. *)
Theorem junk_in_envelope_ignored env k (pre : js_string) (c : code_unit)
  (post : js_string) :
  unbase64 (c mod 256) = None -> c mod 256 <> PAD ->
  decryptPassword env (pre ++ c :: post) k = decryptPassword env (pre ++ post) k.
Proof.
  intros Hn Hp. apply decryptPassword_decoded. unfold base64_decode.
  now rewrite sextets_skip.
Qed.

Lemma junk_in_envelope_ignored_witness :
  unbase64 (10 mod 256) = None /\ 10 mod 256 <> PAD /\
  decryptPassword no_env (lit "23UhnRdMcwuzI/sLH2rAOkol" ++ 10 :: lit "HrAClrUnB6VBP8/394u1xMjvXXCcrOhw+LM=") None
  = decryptPassword no_env (lit "23UhnRdMcwuzI/sLH2rAOkol" ++ lit "HrAClrUnB6VBP8/394u1xMjvXXCcrOhw+LM=") None.
Proof.
  split; [reflexivity|]. split; [discriminate|].
  apply (junk_in_envelope_ignored no_env None); [reflexivity|discriminate].
Defined.

(** X6.  [decryptPassword] reads its input up to the first [=] only:
    whatever follows it, and that padding itself, does not matter. *)
Theorem text_after_padding_ignored env k (s rest : js_string) :
  decryptPassword env (s ++ PAD :: rest) k = decryptPassword env s k.
Proof.
  apply decryptPassword_decoded. unfold base64_decode.
  now rewrite sextets_stop.
Qed.

(** X7.  If the same sixteen random bytes are drawn twice under one key,
    the two ciphertexts of passwords of equal UTF-8 length xor to the xor
    of the passwords' bytes: the envelope hides nothing of one password
    from who knows the other. *)
Theorem nonce_reuse_reveals_xor env rng p q k :
  length (utf8_encode p) = length (utf8_encode q) ->
  xor_list (snd (envelope_decode (encryptPassword env rng p k)))
           (snd (envelope_decode (encryptPassword env rng q k)))
  = xor_list (utf8_encode p) (utf8_encode q).
Proof.
  intros H. rewrite !encryptPassword_envelope.
  rewrite !(envelope_decode_encode _ _ _ (randomBytes_length rng 16)
              (sealed_tag_length _ _ _)).
  cbn [snd]. unfold sealed_text. now apply crypt_same_nonce.
Qed.

Lemma nonce_reuse_reveals_xor_witness :
  length (utf8_encode (lit "hunter2")) = length (utf8_encode (lit "letmein")) /\
  xor_list
    (snd (envelope_decode
            (encryptPassword no_env (constant_rng x2a) (lit "hunter2") None)))
    (snd (envelope_decode
            (encryptPassword no_env (constant_rng x2a) (lit "letmein") None)))
  = xor_list (utf8_encode (lit "hunter2")) (utf8_encode (lit "letmein")).
Proof.
  split; [reflexivity|].
  exact (nonce_reuse_reveals_xor no_env (constant_rng x2a) (lit "hunter2")
           (lit "letmein") None eq_refl).
Defined.

(** X8.  The envelope of the empty password (nonce and tag, 32 bytes) cut
    down to the nonce and the first 4, 8 or 12 to 15 bytes of the tag
    still opens, to the empty password: [decryptPassword] takes the bytes
    after the nonce as the tag whatever their number, and a shorter tag
    is compared on its own length. *)
Theorem truncated_tag_accepted env rng k (n : nat) :
  valid_tag_length n = true ->
  decryptPassword env
    (base64_encode
       (firstn (16 + n) (base64_decode (encryptPassword env rng [] k)))) k
  = Ok [].
Proof.
  intros Hn. pose proof (valid_tag_length_le n Hn) as Hle.
  rewrite encryptPassword_decoded.
  assert (Ht : sealed_tag (resolveKey env k) rng []
               = GCM.tag (AES.key_schedule (deriveKey (resolveKey env k)))
                   (sealed_iv rng) AAD []).
  { unfold sealed_tag. now rewrite sealed_text_nil. }
  rewrite sealed_text_nil, app_nil_r.
  rewrite (decryptPassword_parts _ _ _ _ _ _
             (envelope_decode_cut _ _ n (randomBytes_length rng 16)
                (sealed_tag_length _ _ _) (proj2 Hle))).
  unfold createDecipheriv, sealed_iv.
  change (randomBytes rng 16)
    with (rng 0%nat :: randomBytes (fun i => rng (S i)) 15) at 1.
  cbn [bind]. unfold setAuthTag.
  assert (Hl : length (firstn n (sealed_tag (resolveKey env k) rng [])) = n)
    by (rewrite length_firstn, sealed_tag_length; lia).
  rewrite Hl, Hn. cbn [bind]. unfold update_final_utf8.
  replace (tag_matches _ _ _) with true.
  - cbn [round_keys gcm_iv]. now rewrite crypt_nil.
  - symmetry. apply tag_matches_iff. rewrite Hl.
    unfold getAuthTag. cbn [round_keys gcm_iv gcm_aad].
    fold (sealed_iv rng). now rewrite Ht.
Qed.

Lemma truncated_tag_accepted_witness :
  valid_tag_length 4 = true /\
  decryptPassword no_env
    (base64_encode
       (firstn (16 + 4)
          (base64_decode (encryptPassword no_env (constant_rng x2a) [] None))))
    None = Ok [].
Proof.
  split; [reflexivity|].
  exact (truncated_tag_accepted no_env (constant_rng x2a) None 4 eq_refl).
Defined.

(** X9.  Under one key, the envelopes of two different well-formed
    passwords are different, whatever random bytes were drawn for each. *)
Theorem distinct_passwords_distinct_envelopes env rng1 rng2 p q k :
  well_formed p = true -> well_formed q = true -> p <> q ->
  encryptPassword env rng1 p k <> encryptPassword env rng2 q k.
Proof.
  intros Hp Hq Hpq H. apply Hpq.
  pose proof (decrypt_encrypt env rng1 p k) as Dp.
  rewrite H, decrypt_encrypt, !utf8_roundtrip in Dp by assumption.
  now injection Dp.
Qed.

Lemma distinct_passwords_distinct_envelopes_witness :
  well_formed (lit "hunter2") = true /\ well_formed (lit "hunter3") = true /\
  lit "hunter2" <> lit "hunter3" /\
  encryptPassword no_env (constant_rng x00) (lit "hunter2") None
  <> encryptPassword no_env (constant_rng x01) (lit "hunter3") None.
Proof.
  assert (H : lit "hunter2" <> lit "hunter3") by discriminate.
  split; [reflexivity|]. split; [reflexivity|]. split; [exact H|].
  exact (distinct_passwords_distinct_envelopes no_env (constant_rng x00)
           (constant_rng x01) (lit "hunter2") (lit "hunter3") None
           eq_refl eq_refl H).
Defined.

(** X10.  [CREDENTIALS.OPERATOR.getPassword] returns the operator's
    password in every environment where PLAYWRIGHT_ENCRYPTION_KEY is
    unset, empty or the default key itself: the stored envelope was
    sealed under the built-in default key. *)
Theorem getPassword_under_default_key env :
  or_else (env PLAYWRIGHT_ENCRYPTION_KEY) DEFAULT_KEY = DEFAULT_KEY ->
  getPassword env = Ok (lit "hXadmin@2018").
Proof.
  intros H. rewrite Evaluation.getPassword_unfold.
  rewrite (decryptPassword_resolved env no_env encryptedPassword None None H).
  exact Evaluation.stored_password.
Qed.

Lemma getPassword_under_default_key_witness :
  let env := setenv PLAYWRIGHT_ENCRYPTION_KEY [] no_env in
  or_else (env PLAYWRIGHT_ENCRYPTION_KEY) DEFAULT_KEY = DEFAULT_KEY /\
  getPassword env = Ok (lit "hXadmin@2018").
Proof.
  cbv zeta. split; [reflexivity|].
  exact (getPassword_under_default_key
           (setenv PLAYWRIGHT_ENCRYPTION_KEY [] no_env) eq_refl).
Defined.

(** X11.  For an input that decodes to 32 bytes or more, [decryptPassword]
    returns text exactly when bytes 16 to 31 are the GCM tag of the
    bytes from 32 on under the derived key, the nonce in bytes 0 to 15
    and the fixed associated data; the text is then the UTF-8 reading of
    the deciphered bytes.  Otherwise it throws the error of a failed
    authentication, and never a [TypeError]. *)
Theorem long_envelope_opened_iff_tag env (s : js_string) k :
  (32 <= length (base64_decode s))%nat ->
  let combined := base64_decode s in
  let rks := AES.key_schedule (deriveKey (resolveKey env k)) in
  let iv := subarray combined 0 16 in
  let authTag := subarray combined 16 32 in
  let encrypted := subarray_from combined 32 in
  decryptPassword env s k =
  if list_eq_dec Byte.byte_eq_dec (GCM.tag rks iv AAD encrypted) authTag
  then Ok (utf8_decode (GCM.crypt rks iv encrypted))
  else Throw UnableToAuthenticate.
Proof.
  intros Hlen. cbv zeta.
  destruct (envelope_decode_lengths s _ _ _ Hlen eq_refl) as [Hi Ht].
  rewrite (decryptPassword_parts env s k _ _ _ eq_refl).
  unfold createDecipheriv.
  destruct (subarray (base64_decode s) 0 16) as [|b iv] eqn:Ei; [discriminate Hi|].
  cbn [bind]. unfold setAuthTag. rewrite Ht.
  cbn [valid_tag_length existsb Nat.eqb orb bind].
  unfold update_final_utf8, tag_matches, getAuthTag. rewrite Ht.
  cbn [round_keys gcm_iv gcm_aad].
  rewrite firstn_all2 by (rewrite tag_length; lia).
  now destruct (list_eq_dec _ _ _).
Qed.

Lemma long_envelope_opened_iff_tag_witness :
  (32 <= length (base64_decode encryptedPassword))%nat /\
  decryptPassword no_env encryptedPassword None =
  if list_eq_dec Byte.byte_eq_dec
       (GCM.tag (AES.key_schedule (deriveKey (resolveKey no_env None)))
          (subarray (base64_decode encryptedPassword) 0 16) AAD
          (subarray_from (base64_decode encryptedPassword) 32))
       (subarray (base64_decode encryptedPassword) 16 32)
  then Ok (utf8_decode
             (GCM.crypt (AES.key_schedule (deriveKey (resolveKey no_env None)))
                (subarray (base64_decode encryptedPassword) 0 16)
                (subarray_from (base64_decode encryptedPassword) 32)))
  else Throw UnableToAuthenticate.
Proof.
  assert (H : (32 <= length (base64_decode encryptedPassword))%nat)
    by (apply Nat.leb_le; vm_compute; reflexivity).
  split; [exact H|].
  exact (long_envelope_opened_iff_tag no_env encryptedPassword None H).
Defined.

(** X12.  An input that decodes to 20, 24 or 28 to 31 bytes holds a nonce,
    a tag of 4, 8 or 12 to 15 bytes and no ciphertext: [decryptPassword]
    returns the empty string if those bytes begin the tag of the empty
    ciphertext, and otherwise throws the error of a failed
    authentication.  No other text can come out of an input that short. *)
Theorem short_envelope_opens_to_empty_only env (s : js_string) k :
  (length (base64_decode s) < 32)%nat ->
  valid_tag_length (length (base64_decode s) - 16) = true ->
  let combined := base64_decode s in
  let rks := AES.key_schedule (deriveKey (resolveKey env k)) in
  let iv := subarray combined 0 16 in
  let authTag := subarray combined 16 32 in
  decryptPassword env s k =
  if list_eq_dec Byte.byte_eq_dec
       (firstn (length authTag) (GCM.tag rks iv AAD [])) authTag
  then Ok [] else Throw UnableToAuthenticate.
Proof.
  intros Hlt Hv. cbv zeta. pose proof (valid_tag_length_le _ Hv) as Hle.
  rewrite (decryptPassword_parts env s k _ _ _ eq_refl).
  assert (He : subarray_from (base64_decode s) 32 = [])
    by (unfold subarray_from; apply skipn_all2; lia).
  assert (Ht : length (subarray (base64_decode s) 16 32)
               = (length (base64_decode s) - 16)%nat)
    by (unfold subarray; rewrite length_firstn, length_skipn; lia).
  assert (Hi : length (subarray (base64_decode s) 0 16) = 16%nat)
    by (unfold subarray; rewrite length_firstn, length_skipn; lia).
  rewrite He. unfold createDecipheriv.
  destruct (subarray (base64_decode s) 0 16) as [|b iv] eqn:Ei; [discriminate Hi|].
  cbn [bind]. unfold setAuthTag. rewrite Ht, Hv. cbn [bind].
  unfold update_final_utf8, tag_matches, getAuthTag. rewrite Ht.
  cbn [round_keys gcm_iv gcm_aad]. rewrite crypt_nil.
  now destruct (list_eq_dec _ _ _).
Qed.

Lemma short_envelope_opens_to_empty_only_witness :
  (length (base64_decode twenty_bytes) < 32)%nat /\
  valid_tag_length (length (base64_decode twenty_bytes) - 16) = true /\
  decryptPassword no_env twenty_bytes None =
  if list_eq_dec Byte.byte_eq_dec
       (firstn (length (subarray (base64_decode twenty_bytes) 16 32))
          (GCM.tag (AES.key_schedule (deriveKey (resolveKey no_env None)))
             (subarray (base64_decode twenty_bytes) 0 16) AAD []))
       (subarray (base64_decode twenty_bytes) 16 32)
  then Ok [] else Throw UnableToAuthenticate.
Proof.
  assert (H1 : (length (base64_decode twenty_bytes) < 32)%nat)
    by (apply Nat.ltb_lt; vm_compute; reflexivity).
  assert (H2 : valid_tag_length (length (base64_decode twenty_bytes) - 16) = true)
    by (vm_compute; reflexivity).
  split; [exact H1|]. split; [exact H2|].
  exact (short_envelope_opens_to_empty_only no_env twenty_bytes None H1 H2).
Defined.

(** X13.  [generateEncryptedPassword] never throws.  It returns the
    envelope [encryptPassword] makes with no key argument and writes four
    lines to the standard output: the password, the envelope, the
    password as deciphered from it (unpaired surrogates replaced by
    U+FFFD), and the verdict, which is SUCCESS exactly when the password
    is a well-formed string; after FAILED the envelope is returned all
    the same. *)
Theorem generateEncryptedPassword_log env rng p :
  Spec.code_units p ->
  generateEncryptedPassword env rng p =
  ([(Stdout, lit "Original: " ++ p);
    (Stdout, lit "Encrypted: " ++ encryptPassword env rng p None);
    (Stdout, lit "Decrypted: " ++ Spec.toWellFormed p);
    (Stdout, lit "Verification: " ++ (if well_formed p then SUCCESS else FAILED))],
   Returned (encryptPassword env rng p None)).
Proof.
  intros Hp. rewrite generateEncryptedPassword_run.
  rewrite utf8_to_well_formed, strict_equal_to_well_formed by assumption.
  reflexivity.
Qed.

Lemma generateEncryptedPassword_log_witness :
  Spec.code_units lone_surrogate /\
  generateEncryptedPassword no_env (constant_rng x2a) lone_surrogate =
  ([(Stdout, lit "Original: " ++ lone_surrogate);
    (Stdout, lit "Encrypted: "
             ++ encryptPassword no_env (constant_rng x2a) lone_surrogate None);
    (Stdout, lit "Decrypted: " ++ [REPLACEMENT]);
    (Stdout, lit "Verification: " ++ FAILED)],
   Returned (encryptPassword no_env (constant_rng x2a) lone_surrogate None)).
Proof.
  assert (H : Spec.code_units lone_surrogate) by (repeat constructor).
  split; [exact H|].
  exact (generateEncryptedPassword_log no_env (constant_rng x2a) lone_surrogate H).
Defined.

(** X14.  The script ends with status 0 exactly when its argument is
    present and not empty, and then writes nothing to the standard
    error: its [catch] branch is never taken.  With no argument, or with
    the empty string, it ends with status 1 after one line on the
    standard error and the two usage lines, and no password is
    encrypted. *)
Theorem encrypt_password_exit_status usage env rng argv :
  let run := encrypt_password usage env rng argv in
  match nth_error argv 2 with
  | Some (_ :: _) =>
    exit_status run = 0 /\ on_stream Stderr (written run) = []
  | _ =>
    exit_status run = 1 /\
    on_stream Stderr (written run)
    = [text "❌ Error: Please provide a password to encrypt"] /\
    on_stream Stdout (written run)
    = [lit "Usage: npm run encrypt-password " ++ quote
       ++ lit "your-password-here" ++ quote; usage]
  end.
Proof.
  cbv zeta. destruct (nth_error argv 2) as [[|c s]|] eqn:E.
  - unfold encrypt_password. rewrite E. repeat split.
  - rewrite (encrypt_password_run usage env rng argv (c :: s) E) by discriminate.
    split; reflexivity.
  - unfold encrypt_password. rewrite E. repeat split.
Qed.

(** X15.  Given a well-formed argument that is not empty, the script
    prints, in the line to copy into constants.ts, an envelope that
    [decryptPassword] opens in the same environment to that argument,
    and reports the verification as SUCCESS. *)
Theorem encrypt_password_prints_envelope usage env rng argv (password : js_string) :
  nth_error argv 2 = Some password -> password <> [] ->
  well_formed password = true ->
  let envelope := encryptPassword env rng password None in
  let lines := on_stream Stdout (written (encrypt_password usage env rng argv)) in
  nth_error lines 7 = Some (lit "encryptedPassword: '" ++ envelope ++ lit "'") /\
  nth_error lines 5 = Some (lit "Verification: " ++ SUCCESS) /\
  decryptPassword env envelope None = Ok password.
Proof.
  intros H Hp Hw. cbv zeta.
  rewrite (encrypt_password_run usage env rng argv password H Hp).
  rewrite decrypt_encrypt, utf8_roundtrip by assumption.
  replace (strict_equal password password) with true
    by (symmetry; now apply strict_equal_iff).
  repeat split.
Qed.

Lemma encrypt_password_prints_envelope_witness :
  let argv := [lit "node"; lit "scripts/encrypt-password.ts"; lit "hunter2"] in
  nth_error argv 2 = Some (lit "hunter2") /\ lit "hunter2" <> [] /\
  well_formed (lit "hunter2") = true /\
  decryptPassword no_env
    (encryptPassword no_env (constant_rng x2a) (lit "hunter2") None) None
  = Ok (lit "hunter2").
Proof.
  assert (H : lit "hunter2" <> []) by discriminate.
  cbv zeta. split; [reflexivity|]. split; [exact H|]. split; [reflexivity|].
  exact (proj2 (proj2 (encrypt_password_prints_envelope usage_ts no_env
                         (constant_rng x2a)
                         [lit "node"; lit "scripts/encrypt-password.ts"; lit "hunter2"]
                         (lit "hunter2") eq_refl H eq_refl))).
Defined.

(** X16.  The generated names of test data tell clock readings apart: two
    values of [Date.now()] give the same client name, the same entity
    name or the same timestamp only if they are equal; and no client name
    is an entity name, whatever the two clock readings. *)
Theorem generated_names_distinct (t1 t2 : N) :
  (generateClientName t1 = generateClientName t2 <-> t1 = t2) /\
  (generateEntityName t1 = generateEntityName t2 <-> t1 = t2) /\
  (generateTimestamp t1 = generateTimestamp t2 <-> t1 = t2) /\
  generateClientName t1 <> generateEntityName t2.
Proof.
  unfold generateClientName, generateEntityName, generateTimestamp.
  split; [|split; [|split]].
  - split; [|now intros ->]. intros H.
    apply app_inv_head in H. now apply number_to_string_inj in H.
  - split; [|now intros ->]. intros H.
    apply app_inv_head in H. now apply number_to_string_inj in H.
  - split; [|now intros ->]. apply number_to_string_inj.
  - intros H. apply (f_equal (firstn 12)) in H. discriminate H.
Qed.

Lemma generated_names_distinct_witness :
  generateClientName 1762128000000 <> generateClientName 1762128000001 /\
  generateClientName 1762128000000 <> generateEntityName 1762128000000.
Proof.
  split.
  - intros H.
    apply (proj1 (generated_names_distinct 1762128000000 1762128000001)) in H.
    discriminate H.
  - exact (proj2 (proj2 (proj2
             (generated_names_distinct 1762128000000 1762128000000)))).
Defined.
